(** * Python-Portfolio-Tracker: valuation engine, storage and dashboard

    A shallow embedding of [python_portfolio_tracker.py] (the command-line
    tracker: [PortfolioDB], [PortfolioAnalyzer], [main]) and of
    [streamlit_app.py] (the dashboard: [fetch_current_prices], [add_trade],
    [import_csv_to_db] and the metric / aggregation block of the main page).

    Numbers.  The program computes on pandas [float64] columns.  The
    behaviour of the special values is modelled exactly: a division by
    zero does not raise, it yields an infinity or NaN; [Series.sum] and
    the group-by [sum] skip NaN; [fillna(0)] replaces NaN and nothing
    else.  Finite values are rationals, and there is a single zero (a
    division by zero takes the sign of the numerator).  The operations
    [fadd], [fmul], [fdiv] and what is built on them ([series_sum], [agg],
    [allocation_pct]) compute a finite result exactly; they carry the
    statements that do not depend on rounding.  [round64] is the rounding
    of binary64 (to nearest, ties to even, overflow to an infinity,
    subnormal numbers included), and [fadd64], [fdiv64], [series_sum64],
    [agg64] and [allocation_pct64] are the operations with it; they carry
    the statements that rounding decides: the totals of the aggregate and
    the sum of the allocations.

    Storage.  [insert_row], [delete_position] and [import_csv_to_db] give
    the effect of statements that SQLite executes.  The calls that can
    raise ([add_position_call], [add_trade_call], [delete_position_call],
    [import_csv_call]) return the exception or the new database. *)

From Stdlib Require Import QArith Qcanon Qround Qpower Lqa String Ascii.
From stdpp Require Import sorting numbers strings gmap fin_maps list.

Local Open Scope Qc_scope.

(* ===================================================================== *)
(** ** float64 values and the column operations used by the program      *)
(* ===================================================================== *)

Inductive float : Type :=
  | Finite (q : Qc)
  | PInf
  | NInf
  | NaN.

Definition zero : float := Finite 0.
Definition one : float := Finite 1.

(** A literal [n/d]. *)
Definition lit (n : Z) (d : positive) : float := Finite (Q2Qc (n # d)).
Definition num (n : Z) : float := lit n 1.

Definition isnan (x : float) : bool :=
  match x with NaN => true | _ => false end.

Definition is_finite (x : float) : Prop :=
  match x with Finite _ => True | _ => False end.

Definition sign (q : Qc) : comparison := q ?= 0.

Definition inf_of (c : comparison) : float :=
  match c with Gt => PInf | Lt => NInf | Eq => NaN end.

Definition fneg (x : float) : float :=
  match x with
  | Finite q => Finite (- q)
  | PInf => NInf
  | NInf => PInf
  | NaN => NaN
  end.

Definition fadd (x y : float) : float :=
  match x, y with
  | NaN, _ | _, NaN => NaN
  | Finite a, Finite b => Finite (a + b)
  | PInf, NInf | NInf, PInf => NaN
  | PInf, _ | _, PInf => PInf
  | NInf, _ | _, NInf => NInf
  end.

Definition fsub (x y : float) : float := fadd x (fneg y).

Definition fmul (x y : float) : float :=
  match x, y with
  | NaN, _ | _, NaN => NaN
  | Finite a, Finite b => Finite (a * b)
  | Finite a, PInf | PInf, Finite a => inf_of (sign a)
  | Finite a, NInf | NInf, Finite a => inf_of (CompOpp (sign a))
  | PInf, PInf | NInf, NInf => PInf
  | PInf, NInf | NInf, PInf => NInf
  end.

(** [x / y] on float64 columns: no exception; [q / 0] is an infinity of the
    sign of [q], [0 / 0] and [inf / inf] are NaN. *)
Definition fdiv (x y : float) : float :=
  match x, y with
  | NaN, _ | _, NaN => NaN
  | Finite a, Finite b =>
      if decide (b = 0) then inf_of (sign a) else Finite (a / b)
  | Finite _, (PInf | NInf) => Finite 0
  | PInf, Finite b => match sign b with Lt => NInf | _ => PInf end
  | NInf, Finite b => match sign b with Lt => PInf | _ => NInf end
  | (PInf | NInf), (PInf | NInf) => NaN
  end.

(** [x == 0], as used by Python truthiness of a float ([x if x else 1]):
    only zero is falsy; NaN and the infinities are truthy. *)
Definition is_zero (x : float) : bool :=
  match x with Finite q => bool_decide (q = 0) | _ => false end.

(** [x > 0] on floats (false for NaN). *)
Definition fpositive (x : float) : bool :=
  match x with
  | Finite q => match sign q with Gt => true | _ => false end
  | PInf => true
  | _ => false
  end.

(** [Series.fillna(0)] on one cell. *)
Definition fillna0 (x : float) : float :=
  match x with NaN => zero | _ => x end.

(** [Series.sum()] with the defaults [skipna=True, min_count=0]: NaN cells
    are left out, the empty sum is 0.  The group-by [sum] aggregation
    treats the cells of a group the same way. *)
Definition series_sum (l : list float) : float :=
  fold_left fadd (filter (fun x => isnan x = false) l) zero.

#[global] Instance float_eq_dec : EqDecision float.
Proof. solve_decision. Defined.

(** Boolean equality on [float], for closed computations. *)
Definition float_eqb (x y : float) : bool :=
  match x, y with
  | Finite a, Finite b => Qeq_bool a b
  | PInf, PInf | NInf, NInf | NaN, NaN => true
  | _, _ => false
  end.

Definition floats_eqb (l1 l2 : list float) : bool :=
  bool_decide (length l1 = length l2)
  && forallb (fun xy => float_eqb xy.1 xy.2) (zip l1 l2).

(* ===================================================================== *)
(** ** Strings: [str.upper] on ticker symbols                            *)
(* ===================================================================== *)

(** Symbols are byte strings; [str.upper] maps the ASCII letters [a]..[z]
    to [A]..[Z] and leaves every other byte alone. *)
Definition upper_ascii (c : ascii) : ascii :=
  let n := N_of_ascii c in
  if ((97 <=? n) && (n <=? 122))%N then ascii_of_N (n - 32) else c.

Fixpoint upper (s : string) : string :=
  match s with
  | EmptyString => EmptyString
  | String c s' => String (upper_ascii c) (upper s')
  end.

(* ===================================================================== *)
(** ** Storage: the [positions] table                                     *)
(* ===================================================================== *)

(** One row of
    [positions(id INTEGER PRIMARY KEY AUTOINCREMENT, symbol, shares,
     cost_per_share, trade_date, note)]. *)
Record Position : Type := mkPosition {
  row_id : Z;
  symbol : string;
  shares : float;
  cost_per_share : float;
  trade_date : string;
  note : option string
}.

(** The database: the table in rowid order and the [sqlite_sequence]
    counter that AUTOINCREMENT keeps (the largest id ever handed out). *)
Record PortfolioDB : Type := mkDB {
  positions_table : list Position;
  sqlite_sequence : Z
}.

Definition init_db : PortfolioDB := mkDB [] 0.

(** The id AUTOINCREMENT assigns: one more than the largest id that ever
    existed in the table. *)
Definition next_id (db : PortfolioDB) : Z :=
  (1 + foldr Z.max (sqlite_sequence db) (fmap row_id (positions_table db)))%Z.

(** [INSERT INTO positions (symbol, shares, cost_per_share, trade_date,
    note) VALUES ...], when SQLite accepts it: the id is assigned by the
    table.  ([execute_insert] below says when it does.) *)
Definition insert_row (db : PortfolioDB) (sym : string) (sh cps : float)
    (date : string) (nt : option string) : PortfolioDB :=
  let i := next_id db in
  mkDB (positions_table db ++ [mkPosition i sym sh cps date nt]) i.

(** [PortfolioDB.add_position]. *)
Definition add_position (db : PortfolioDB) (sym : string)
    (sh cps : float) (date : string) (nt : string) : PortfolioDB :=
  insert_row db (upper sym) sh cps date (Some nt).

(** [PortfolioDB.list_positions]: [SELECT * FROM positions]. *)
Definition list_positions (db : PortfolioDB) : list Position :=
  positions_table db.

(** [PortfolioDB.delete_position]: [DELETE FROM positions WHERE id = ?],
    for an id that the driver can bind ([delete_position_call] below says
    when it can). *)
Definition delete_position (db : PortfolioDB) (position_id : Z)
    : PortfolioDB :=
  mkDB (filter (fun r => row_id r <> position_id) (positions_table db))
       (sqlite_sequence db).

(** Dashboard, [add_trade]: uppercases the symbol, [note or ""]. *)
Definition add_trade (db : PortfolioDB) (sym : string) (sh price : float)
    (date : string) (nt : string) : PortfolioDB :=
  let sym := upper sym in
  insert_row db sym sh price date (Some nt).

(** One data line of an imported CSV with header
    [symbol, shares, cost_per_share, trade_date, note] (no [id] column),
    with its symbol and its date present. *)
Record CsvRow : Type := mkCsvRow {
  csv_symbol : string;
  csv_shares : float;
  csv_cost_per_share : float;
  csv_trade_date : string;
  csv_note : option string
}.

(** Dashboard, [import_csv_to_db]: [df.to_sql("positions", engine,
    if_exists="append", index=False)] inserts the parsed lines as they
    are, in file order, when SQLite accepts every line
    ([import_csv_call] below says when it does). *)
Definition import_csv_to_db (db : PortfolioDB) (df : list CsvRow)
    : PortfolioDB :=
  fold_left
    (fun d r => insert_row d (csv_symbol r) (csv_shares r)
                  (csv_cost_per_share r) (csv_trade_date r) (csv_note r))
    df db.

Definition upper_symbol (p : Position) : Position :=
  mkPosition (row_id p) (upper (symbol p)) (shares p) (cost_per_share p)
             (trade_date p) (note p).

(** [df.empty]. *)
Definition df_empty {A : Type} (df : list A) : bool :=
  match df with [] => true | _ => false end.

(** Dashboard, [read_positions_df]. *)
Definition read_positions_df (db : PortfolioDB) : list Position :=
  let df := positions_table db in
  if df_empty df then df else fmap upper_symbol df.

(* ===================================================================== *)
(** ** The price source (yfinance)                                        *)
(* ===================================================================== *)

(** What [yf.Ticker(sym).history(period='5d')] does: it raises, or it
    returns a frame whose [Close] column is given (possibly empty). *)
Inductive history : Type :=
  | HistoryRaises
  | History (close : list float).

(** What [t.info.get('regularMarketPrice')] does: it raises, or it returns
    the price or [None]. *)
Inductive info : Type :=
  | InfoRaises
  | Info (regularMarketPrice : option float).

Record Ticker : Type := mkTicker {
  ticker_history : history;
  ticker_info : info
}.

Definition yfinance : Type := string -> Ticker.

(** A Python [dict] from symbols to prices, in insertion order. *)
Definition dict : Type := list (string * float).

Fixpoint dict_set {V : Type} (d : list (string * V)) (k : string) (v : V)
    : list (string * V) :=
  match d with
  | [] => [(k, v)]
  | (k', v') :: d' =>
      if String.eqb k' k then (k', v) :: d' else (k', v') :: dict_set d' k v
  end.

Fixpoint dict_get {V : Type} (d : list (string * V)) (k : string)
    : option V :=
  match d with
  | [] => None
  | (k', v') :: d' => if String.eqb k' k then Some v' else dict_get d' k
  end.

(** [Series.unique().tolist()]: the distinct values in order of first
    appearance. *)
Fixpoint unique (l : list string) : list string :=
  match l with
  | [] => []
  | x :: l' => x :: filter (fun y => y <> x) (unique l')
  end.

(** [hist['Close'].iloc[-1]], when [hist] is not empty. *)
Fixpoint last_close (close : list float) : option float :=
  match close with
  | [] => None
  | [price] => Some price
  | _ :: close' => last_close close'
  end.

(** The body of the loop of [PortfolioAnalyzer.fetch_prices] for one
    symbol: the last close, [0.0] when the history is empty, and [0.0]
    when anything raised. *)
Definition cli_quote (yf : yfinance) (sym : string) : float :=
  match ticker_history (yf sym) with
  | HistoryRaises => zero
  | History close =>
      match last_close close with
      | Some price => price
      | None => zero
      end
  end.

(** The body of the loop of the dashboard's [fetch_current_prices]: as
    above, but an empty history falls back on [regularMarketPrice]. *)
Definition dash_quote (yf : yfinance) (s : string) : float :=
  match ticker_history (yf s) with
  | HistoryRaises => zero
  | History close =>
      match last_close close with
      | Some price => price
      | None =>
          match ticker_info (yf s) with
          | InfoRaises => zero
          | Info None => zero
          | Info (Some info_price) => info_price
          end
      end
  end.

(** Dashboard, [fetch_current_prices(symbols)]. *)
Definition fetch_current_prices (yf : yfinance) (symbols : list string)
    : dict :=
  fold_left (fun prices s => dict_set prices s (dash_quote yf s)) symbols [].

(* ===================================================================== *)
(** ** PortfolioAnalyzer (command line)                                   *)
(* ===================================================================== *)

(** [PortfolioAnalyzer.__init__]: the analyzer's own table; the symbols
    are uppercased when the table is not empty. *)
Definition PortfolioAnalyzer (df_positions : list Position)
    : list Position :=
  let positions := df_positions in
  if df_empty positions then positions else fmap upper_symbol positions.

(** [PortfolioAnalyzer.fetch_prices]: the two-column frame
    [symbol, current_price], one line per distinct symbol. *)
Definition fetch_prices (yf : yfinance) (positions : list Position)
    : list (string * float) :=
  if df_empty positions then []
  else
    let symbols := unique (fmap symbol positions) in
    let data :=
      fold_left (fun data sym => dict_set data sym (cli_quote yf sym))
                symbols [] in
    data.

(** A line of the valuation table: the position's own columns and the
    derived ones. *)
Record ValuationRow : Type := mkValuationRow {
  position : Position;
  current_price : float;
  current_value : float;
  cost_basis : float;
  pnl_abs : float;
  pnl_pct : float
}.

(** [left.merge(right, on='symbol', how='left')]: every line of [left], in
    order, once per line of [right] with the same symbol, and once with a
    missing price when there is none. *)
Definition merge (left : list Position) (right : list (string * float))
    : list (Position * float) :=
  flat_map
    (fun p =>
       match filter (fun kv => kv.1 = symbol p) right with
       | [] => [(p, NaN)]
       | ms => fmap (fun kv => (p, kv.2)) ms
       end)
    left.

(** The four column assignments of [summary], for one line. *)
Definition summary_row (pq : Position * float) : ValuationRow :=
  let '(p, price) := pq in
  let current_value := fmul (shares p) price in
  let cost_basis := fmul (shares p) (cost_per_share p) in
  let pnl_abs := fsub current_value cost_basis in
  let pnl_pct := fdiv pnl_abs cost_basis in
  mkValuationRow p price current_value cost_basis pnl_abs pnl_pct.

(** What [summary] returns: the empty dict, or the dict with the keys
    [positions], [total_value], [total_cost] and [total_pnl]. *)
Inductive summary_result : Type :=
  | EmptyDict
  | Summary (positions : list ValuationRow)
            (total_value total_cost total_pnl : float).

(** [PortfolioAnalyzer.summary], on the analyzer's table. *)
Definition summary (yf : yfinance) (positions : list Position)
    : summary_result :=
  if df_empty positions then EmptyDict
  else
    let prices := fetch_prices yf positions in
    let df := fmap summary_row (merge positions prices) in
    let total_value := series_sum (fmap current_value df) in
    let total_cost := series_sum (fmap cost_basis df) in
    let total_pnl := fsub total_value total_cost in
    Summary df total_value total_cost total_pnl.

Definition summary_positions (s : summary_result) : list ValuationRow :=
  match s with
  | EmptyDict => []
  | Summary df _ _ _ => df
  end.

(** What the program prints. *)
Inductive output : Type :=
  | PrintLine (s : string)
  | PrintTotals (total_value total_cost total_pnl : float)
  | PrintTable (rows : list ValuationRow).

(** [PortfolioAnalyzer.show_table]. *)
Definition show_table (df_table : list ValuationRow) : list output :=
  if df_empty df_table then [PrintLine "No positions."]
  else [PrintTable df_table].

(** The [view] branch of [main]. *)
Definition main_view (yf : yfinance) (db : PortfolioDB) : list output :=
  let df := list_positions db in
  let pa := PortfolioAnalyzer df in
  let s := summary yf pa in
  match s with
  | EmptyDict => [PrintLine "No positions."]
  | Summary positions total_value total_cost total_pnl =>
      PrintTotals total_value total_cost total_pnl :: show_table positions
  end.

(* ===================================================================== *)
(** ** The dashboard's main page                                          *)
(* ===================================================================== *)

(** [df['symbol'].map(prices)] on one cell: the dict's value, a missing
    value for a key the dict lacks. *)
Definition series_map (prices : dict) (k : string) : float :=
  default NaN (dict_get prices k).

(** The five column assignments of the metric block, for one line. *)
Definition dashboard_row (prices : dict) (p : Position) : ValuationRow :=
  let current_price := series_map prices (symbol p) in
  let current_value := fmul (shares p) current_price in
  let cost_basis := fmul (shares p) (cost_per_share p) in
  let pnl_abs := fsub current_value cost_basis in
  let pnl_pct := fillna0 (fdiv pnl_abs cost_basis) in
  mkValuationRow p current_price current_value cost_basis pnl_abs pnl_pct.

Definition dashboard_metrics (prices : dict) (df : list Position)
    : list ValuationRow :=
  fmap (dashboard_row prices) df.

(** A line of the per-symbol table [agg]. *)
Record AggRow : Type := mkAggRow {
  agg_symbol : string;
  agg_shares : float;
  agg_cost_basis : float;
  agg_current_value : float;
  agg_pnl_abs : float;
  agg_pnl_pct : float
}.

Definition row_symbol (r : ValuationRow) : string := symbol (position r).
Definition row_shares (r : ValuationRow) : float := shares (position r).

(** Group keys of [df.groupby('symbol')]: the distinct symbols, sorted. *)
Definition string_le (a b : string) : Prop := String.leb a b.

#[global] Instance string_le_dec (a b : string) : Decision (string_le a b).
Proof. unfold string_le. apply _. Defined.

Definition group_keys (df : list ValuationRow) : list string :=
  merge_sort string_le (unique (fmap row_symbol df)).

(** The lines of one group, in table order. *)
Definition group (df : list ValuationRow) (k : string)
    : list ValuationRow :=
  filter (fun r => row_symbol r = k) df.

(** [df.groupby('symbol').agg({shares, cost_basis, current_value,
    pnl_abs: 'sum'}).reset_index()] followed by
    [agg['pnl_pct'] = (agg['pnl_abs'] / agg['cost_basis']).fillna(0)]. *)
Definition agg_row (df : list ValuationRow) (k : string) : AggRow :=
  let g := group df k in
  let shares := series_sum (fmap row_shares g) in
  let cost_basis := series_sum (fmap cost_basis g) in
  let current_value := series_sum (fmap current_value g) in
  let pnl_abs := series_sum (fmap pnl_abs g) in
  let pnl_pct := fillna0 (fdiv pnl_abs cost_basis) in
  mkAggRow k shares cost_basis current_value pnl_abs pnl_pct.

Definition agg (df : list ValuationRow) : list AggRow :=
  fmap (agg_row df) (group_keys df).

(** [agg['allocation_pct'] =
     agg['current_value'] / (total_value if total_value else 1)]. *)
Definition allocation_pct (agg : list AggRow) : list float :=
  let total_value := series_sum (fmap agg_current_value agg) in
  fmap (fun a =>
         fdiv (agg_current_value a)
              (if is_zero total_value then one else total_value))
      agg.

(** What the main page computes before it renders. *)
Record Dashboard : Type := mkDashboard {
  dash_df : list ValuationRow;
  dash_agg : list AggRow;
  dash_total_value : float;
  dash_total_cost : float;
  dash_total_pnl : float;
  dash_allocation_pct : list float
}.

(** The main page: [None] when it stops on "No positions yet". *)
Definition dashboard (yf : yfinance) (db : PortfolioDB)
    : option Dashboard :=
  let df := read_positions_df db in
  if df_empty df then None
  else
    let symbols := unique (fmap symbol df) in
    let prices := fetch_current_prices yf symbols in
    let df := dashboard_metrics prices df in
    let agg := agg df in
    let total_value := series_sum (fmap agg_current_value agg) in
    let total_cost := series_sum (fmap agg_cost_basis agg) in
    let total_pnl := fsub total_value total_cost in
    Some (mkDashboard df agg total_value total_cost total_pnl
                      (allocation_pct agg)).

(* ===================================================================== *)
(** ** Data frames as shared objects                                      *)
(* ===================================================================== *)

(** A data frame is a mutable object: the caller of [PortfolioAnalyzer]
    and the analyzer may hold references to the same frame.  The store
    maps references to frames; [copy] and [merge] allocate, a column
    assignment writes through the reference. *)
Inductive frame : Type :=
  | PositionsFrame (rows : list Position)
  | PricesFrame (rows : list (string * float))
  | MergedFrame (rows : list (Position * float))
                (columns : list (string * list float)).

Definition ref : Type := nat.

Definition M (A : Type) : Type := gmap nat frame -> option (A * gmap nat frame).

Definition ret {A : Type} (a : A) : M A := fun h => Some (a, h).

Definition bind {A B : Type} (c : M A) (k : A -> M B) : M B :=
  fun h => match c h with
           | Some (a, h') => k a h'
           | None => None
           end.

Notation "'do' x <- c ; k" := (bind c (fun x => k))
  (at level 10, x name, c at level 100, k at level 200).

(** A new object. *)
Definition alloc (f : frame) : M ref :=
  fun h => let r := fresh (dom h) in Some (r, <[r := f]> h).

(** Reading through a reference (an error if it dangles). *)
Definition load (r : ref) : M frame :=
  fun h => match h !! r with
           | Some f => Some (f, h)
           | None => None
           end.

(** Writing through a reference: the object changes for every holder. *)
Definition store (r : ref) (f : frame) : M unit :=
  fun h => Some (tt, <[r := f]> h).

Definition type_error {A : Type} : M A := fun _ => None.

(** [df.copy()]. *)
Definition copy (r : ref) : M ref :=
  do f <- load r; alloc f.

(** The numeric column [c] of a merged frame: a column of the positions,
    the merged price, or a column assigned since. *)
Definition frame_column (rows : list (Position * float))
    (columns : list (string * list float)) (c : string)
    : option (list float) :=
  if String.eqb c "shares" then
    Some (fmap (fun pq => shares pq.1) rows)
  else if String.eqb c "cost_per_share" then
    Some (fmap (fun pq => cost_per_share pq.1) rows)
  else if String.eqb c "current_price" then
    Some (fmap snd rows)
  else dict_get columns c.

(** [df[c]] on a merged frame ([KeyError] when there is no such
    column). *)
Definition getitem (df : ref) (c : string) : M (list float) :=
  do f <- load df;
  match f with
  | MergedFrame rows columns =>
      match frame_column rows columns c with
      | Some col => ret col
      | None => type_error
      end
  | _ => type_error
  end.

(** [df[c] = col] on a merged frame: the frame itself changes. *)
Definition setitem (df : ref) (c : string) (col : list float) : M unit :=
  do f <- load df;
  match f with
  | MergedFrame rows columns =>
      store df (MergedFrame rows (dict_set columns c col))
  | _ => type_error
  end.

(** [PortfolioAnalyzer.__init__(self, df_positions)]; the result is
    [self.positions]. *)
Definition PortfolioAnalyzer_init (df_positions : ref) : M ref :=
  do positions <- copy df_positions;
  do f <- load positions;
  match f with
  | PositionsFrame rows =>
      if df_empty rows then ret positions
      else
        do _ <- store positions (PositionsFrame (fmap upper_symbol rows));
        ret positions
  | _ => type_error
  end.

(** [self.fetch_prices()]: reads [self.positions], returns a new frame. *)
Definition fetch_prices_st (yf : yfinance) (self_positions : ref) : M ref :=
  do f <- load self_positions;
  match f with
  | PositionsFrame rows => alloc (PricesFrame (fetch_prices yf rows))
  | _ => type_error
  end.

(** [left.merge(right, on='symbol', how='left')]: reads both frames,
    returns a new one. *)
Definition merge_st (left right : ref) : M ref :=
  do l <- load left;
  do r <- load right;
  match l, r with
  | PositionsFrame rows, PricesFrame price_rows =>
      alloc (MergedFrame (merge rows price_rows) [])
  | _, _ => type_error
  end.

(** What [summary] returns, with the frame under [positions] held by
    reference. *)
Inductive summary_ref : Type :=
  | EmptyDictRef
  | SummaryRef (positions : ref) (total_value total_cost total_pnl : float).

(** [PortfolioAnalyzer.summary(self)] on the store, statement by
    statement. *)
Definition summary_st (yf : yfinance) (self_positions : ref)
    : M summary_ref :=
  do f <- load self_positions;
  match f with
  | PositionsFrame rows =>
      if df_empty rows then ret EmptyDictRef
      else
        do prices <- fetch_prices_st yf self_positions;
        do df <- merge_st self_positions prices;
        do sh <- getitem df "shares";
        do price <- getitem df "current_price";
        do _ <- setitem df "current_value" (zip_with fmul sh price);
        do sh <- getitem df "shares";
        do cps <- getitem df "cost_per_share";
        do _ <- setitem df "cost_basis" (zip_with fmul sh cps);
        do cv <- getitem df "current_value";
        do cb <- getitem df "cost_basis";
        do _ <- setitem df "pnl_abs" (zip_with fsub cv cb);
        do pa <- getitem df "pnl_abs";
        do cb <- getitem df "cost_basis";
        do _ <- setitem df "pnl_pct" (zip_with fdiv pa cb);
        do cv <- getitem df "current_value";
        let total_value := series_sum cv in
        do cb <- getitem df "cost_basis";
        let total_cost := series_sum cb in
        let total_pnl := fsub total_value total_cost in
        ret (SummaryRef df total_value total_cost total_pnl)
  | _ => type_error
  end.

(** The caller's side: build the analyzer on the caller's frame, then ask
    for the summary. *)
Definition analyze (yf : yfinance) (df_positions : ref)
    : M (ref * summary_ref) :=
  do self_positions <- PortfolioAnalyzer_init df_positions;
  do s <- summary_st yf self_positions;
  ret (self_positions, s).

(** The lines of a merged frame that has the four derived columns. *)
Definition valuation_rows (rows : list (Position * float))
    (columns : list (string * list float)) : option (list ValuationRow) :=
  match dict_get columns "current_value", dict_get columns "cost_basis",
        dict_get columns "pnl_abs", dict_get columns "pnl_pct" with
  | Some cv, Some cb, Some pa, Some pp =>
      Some (zip_with
              (fun pq c =>
                 mkValuationRow pq.1 pq.2 c.1.1.1 c.1.1.2 c.1.2 c.2)
              rows (zip (zip (zip cv cb) pa) pp))
  | _, _, _, _ => None
  end.

(** Reading a returned summary back from the store. *)
Definition read_summary (h : gmap nat frame) (s : summary_ref)
    : option summary_result :=
  match s with
  | EmptyDictRef => Some EmptyDict
  | SummaryRef r tv tc tp =>
      match h !! r with
      | Some (MergedFrame rows columns) =>
          match valuation_rows rows columns with
          | Some df => Some (Summary df tv tc tp)
          | None => None
          end
      | _ => None
      end
  end.

(* ===================================================================== *)
(** ** Storage calls that SQLite refuses                                  *)
(* ===================================================================== *)

(** [insert_row] and [delete_position] above give the effect of a
    statement that SQLite executes.  A call can also raise, and then the
    table is left as it was (the statement, or the transaction around it,
    has no effect).  The calls below return the exception or the new
    database. *)
Inductive db_error : Type :=
  | OverflowError      (* Python int too large to convert to SQLite INTEGER *)
  | IntegrityError     (* NOT NULL constraint failed *)
  | OperationalError.  (* database or disk is full: no id is left *)

(** SQLite's INTEGER is a signed 64-bit number. *)
Definition sqlite_integer (z : Z) : bool :=
  ((- 2 ^ 63 <=? z) && (z <? 2 ^ 63))%Z.

(** The [INSERT] statement as executed.  The driver binds a NaN as NULL,
    which the [NOT NULL] columns [shares] and [cost_per_share] refuse; an
    infinity is stored.  AUTOINCREMENT refuses to hand out an id once the
    largest 64-bit id has been used. *)
Definition execute_insert (db : PortfolioDB) (sym : string) (sh cps : float)
    (date : string) (nt : option string) : db_error + PortfolioDB :=
  if isnan sh || isnan cps then inl IntegrityError
  else if sqlite_integer (next_id db)
       then inr (insert_row db sym sh cps date nt)
       else inl OperationalError.


(** The dashboard's [add_trade(symbol, shares, price, date, note)] as a
    call. *)
Definition add_trade_call (db : PortfolioDB) (sym : string)
    (sh price : float) (date : string) (nt : string)
    : db_error + PortfolioDB :=
  let sym := upper sym in
  execute_insert db sym sh price date (Some nt).

(** [PortfolioDB.delete_position(position_id)] as a call: [position_id]
    is a Python [int] (argparse's [type=int]), which the driver binds only
    when it fits SQLite's INTEGER. *)
Definition delete_position_call (db : PortfolioDB) (position_id : Z)
    : db_error + PortfolioDB :=
  if sqlite_integer position_id then inr (delete_position db position_id)
  else inl OverflowError.





(* ===================================================================== *)
(** ** Vocabulary of the statements                                       *)
(* ===================================================================== *)

(** No price can be obtained on the command line: the history call raises
    or its frame is empty. *)
Definition cli_unobtainable (t : Ticker) : Prop :=
  ticker_history t = HistoryRaises \/ ticker_history t = History [].

(** No price can be obtained on the dashboard: the history call raises, or
    its frame is empty and the fallback raises or has no price. *)
Definition dash_unobtainable (t : Ticker) : Prop :=
  ticker_history t = HistoryRaises \/
  (ticker_history t = History [] /\
   (ticker_info t = InfoRaises \/ ticker_info t = Info None)).

(** What a sum of floats depends on: whether a plus infinity occurs,
    whether a minus infinity occurs, and the sum of the finite cells. *)
Record tally : Type := mkTally {
  has_pinf : bool;
  has_ninf : bool;
  finite_sum : Qc
}.

Definition tally_of (x : float) : tally :=
  match x with
  | Finite q => mkTally false false q
  | PInf => mkTally true false 0
  | NInf => mkTally false true 0
  | NaN => mkTally false false 0
  end.

Definition tzero : tally := mkTally false false 0.

Definition tadd (a b : tally) : tally :=
  mkTally (has_pinf a || has_pinf b) (has_ninf a || has_ninf b)
          (finite_sum a + finite_sum b).

Definition tally_sum (l : list float) : tally :=
  foldr (fun x t => tadd (tally_of x) t) tzero l.

(** The float a tally stands for. *)
Definition resolve (t : tally) : float :=
  match has_pinf t, has_ninf t with
  | true, true => NaN
  | true, false => PInf
  | false, true => NInf
  | false, false => Finite (finite_sum t)
  end.




(** A finite value that is not negative. *)
Definition fnonneg (x : float) : bool :=
  match x with
  | Finite q => match sign q with Lt => false | _ => true end
  | _ => false
  end.

(** The write operations the two programs offer on the table, and the
    database a sequence of them builds from the empty table. *)
Inductive db_op : Type :=
  | AddPosition (sym : string) (sh cps : float) (date nt : string)
  | AddTrade (sym : string) (sh price : float) (date nt : string)
  | ImportCsv (df : list CsvRow)
  | DeletePosition (position_id : Z).

Definition apply_op (db : PortfolioDB) (op : db_op) : PortfolioDB :=
  match op with
  | AddPosition sym sh cps date nt => add_position db sym sh cps date nt
  | AddTrade sym sh price date nt => add_trade db sym sh price date nt
  | ImportCsv df => import_csv_to_db db df
  | DeletePosition position_id => delete_position db position_id
  end.

Definition run (ops : list db_op) : PortfolioDB :=
  fold_left apply_op ops init_db.

(** The primary key: ids are distinct, and none exceeds the counter. *)
Definition db_ok (db : PortfolioDB) : Prop :=
  NoDup (row_id <$> positions_table db) /\
  Forall (fun r => (row_id r <= sqlite_sequence db)%Z) (positions_table db).

(** What AUTOINCREMENT keeps true of the table: the counter is not
    negative, the ids increase along the table, and each is positive and
    at most the counter. *)
Definition db_inv (db : PortfolioDB) : Prop :=
  (0 <= sqlite_sequence db)%Z /\
  StronglySorted Z.lt (row_id <$> positions_table db) /\
  Forall (fun r => (0 < row_id r <= sqlite_sequence db)%Z)
         (positions_table db).

(** No CSV import among the operations. *)
Definition no_import (ops : list db_op) : bool :=
  forallb (fun op => match op with ImportCsv _ => false | _ => true end) ops.


(* ===================================================================== *)
(** ** The rest of the report and of the dashboard                        *)
(* ===================================================================== *)

(** A line of [summary]'s table with [fillna(0)] applied to [pnl_pct], as
    the dashboard's metric block does. *)
Definition fillna_pnl_pct (r : ValuationRow) : ValuationRow :=
  mkValuationRow (position r) (current_price r) (current_value r)
                 (cost_basis r) (pnl_abs r) (fillna0 (pnl_pct r)).

(** Python's built-in [sum] on a list of floats: a running sum from 0,
    NaN included. *)
Definition py_sum (l : list float) : float := fold_left fadd l zero.

(** [generate_report]: the sizes of the allocation pie,
    [if sizes.sum() == 0: sizes = [1 for _ in sizes]]. *)
Definition report_pie_sizes (sizes : list float) : list float :=
  if is_zero (series_sum sizes) then fmap (fun _ => one) sizes else sizes.

(** The dashboard's pie:
    [if sum(sizes) == 0: sizes = [1 for _ in sizes]]. *)
Definition dashboard_pie_sizes (sizes : list float) : list float :=
  if is_zero (py_sum sizes) then fmap (fun _ => one) sizes else sizes.

(** [str.strip()] on byte strings: the ASCII whitespace characters are
    tab, line feed, vertical tab, form feed, carriage return, the four
    separators 28 to 31 and the space. *)
Definition is_space (c : ascii) : bool :=
  let n := N_of_ascii c in
  (((9 <=? n) && (n <=? 13)) || ((28 <=? n) && (n <=? 32)))%N.

Fixpoint lstrip (s : string) : string :=
  match s with
  | EmptyString => EmptyString
  | String c s' => if is_space c then lstrip s' else s
  end.

Fixpoint rstrip (s : string) : string :=
  match s with
  | EmptyString => EmptyString
  | String c s' =>
      match rstrip s' with
      | EmptyString => if is_space c then EmptyString else String c EmptyString
      | r => String c r
      end
  end.

Definition strip (s : string) : string := rstrip (lstrip s).

(** Whether a string starts, or ends, with whitespace. *)
Definition head_space (s : string) : bool :=
  match s with
  | EmptyString => false
  | String c _ => is_space c
  end.

Fixpoint last_space (s : string) : bool :=
  match s with
  | EmptyString => false
  | String c EmptyString => is_space c
  | String _ s' => last_space s'
  end.

(** Whitespace only (or empty). *)
Fixpoint all_space (s : string) : bool :=
  match s with
  | EmptyString => true
  | String c s' => is_space c && all_space s'
  end.

(** Only ASCII characters. *)
Fixpoint is_ascii (s : string) : bool :=
  match s with
  | EmptyString => true
  | String c s' => (N_of_ascii c <? 128)%N && is_ascii s'
  end.

(** What the sidebar shows after a click. *)
Inductive st_message : Type :=
  | StError (msg : string)
  | StSuccess (shares : float) (sym : string) (price : float).

(** The dashboard's "Add trade" button: the new database and the message
    shown, or the exception [add_trade] raised. *)
Definition add_trade_button (db : PortfolioDB) (c_symbol : string)
    (c_shares c_price : float) (c_date c_note : string)
    : db_error + PortfolioDB * st_message :=
  if String.eqb (strip c_symbol) "" then inr (db, StError "Enter a symbol")
  else
    match add_trade_call db (strip c_symbol) c_shares c_price c_date c_note
    with
    | inr db' => inr (db', StSuccess c_shares (upper c_symbol) c_price)
    | inl e => inl e
    end.
(* ===================================================================== *)
(** ** binary64 rounding                                                  *)
(* ===================================================================== *)

(** The operations [fadd], [fmul], [fdiv] above compute a finite result
    exactly.  The program's float64 operations round it: to the nearest
    binary64 number, to the one with an even last bit when it is half way,
    and to an infinity when it is too large.  [round64] is that rounding,
    and [fadd64], [fdiv64], [series_sum64], [agg64] and
    [allocation_pct64] are the operations with it; they are used where
    rounding decides a statement. *)

(** [2^e], for an integer [e] of either sign. *)
Definition pow2 (e : Z) : Q := (2 ^ e)%Q.

(** The integer nearest to a rational, the even one of the two when it is
    half way. *)
Definition round_half_even (s : Q) : Z :=
  let f := Qfloor s in
  match (s - inject_Z f ?= 1 # 2)%Q with
  | Lt => f
  | Gt => (f + 1)%Z
  | Eq => if Z.even f then f else (f + 1)%Z
  end.

(** The exponent of the unit in the last place of a positive rational [x]
    in binary64: the [k] with [2^52 <= x / 2^k < 2^53], and [-1074] for
    the subnormal numbers. *)
Definition ulp_exponent (x : Q) : Z :=
  let k := (Z.log2 (Qnum x) - Z.log2 (Zpos (Qden x)) - 53)%Z in
  let k := if Qle_bool (pow2 53) (x / pow2 k) then (k + 1)%Z else k in
  Z.max k (-1074).

(** Rounding a positive rational to binary64; a result of [2^1024] or
    more is an overflow. *)
Definition round_pos (x : Q) : float :=
  let k := ulp_exponent x in
  let m := round_half_even (x / pow2 k) in
  let y := (inject_Z m * pow2 k)%Q in
  if Qle_bool (pow2 1024) y then PInf else Finite (Q2Qc y).

Definition round64 (q : Qc) : float :=
  match (q ?= 0)%Q with
  | Eq => Finite 0
  | Gt => round_pos q
  | Lt => fneg (round_pos (- q)%Q)
  end.

(** [x + y] on float64. *)
Definition fadd64 (x y : float) : float :=
  match x, y with
  | Finite a, Finite b => round64 (a + b)
  | _, _ => fadd x y
  end.

(** [x / y] on float64. *)
Definition fdiv64 (x y : float) : float :=
  match x, y with
  | Finite a, Finite b =>
      if decide (b = 0) then inf_of (sign a) else round64 (a / b)
  | _, _ => fdiv x y
  end.

(** [Series.sum()] on float64: a running sum, rounded at every step. *)
Definition series_sum64 (l : list float) : float :=
  fold_left fadd64 (filter (fun x => isnan x = false) l) zero.

(** The per-symbol table [agg] on float64. *)
Definition agg_row64 (df : list ValuationRow) (k : string) : AggRow :=
  let g := group df k in
  let shares := series_sum64 (fmap row_shares g) in
  let cost_basis := series_sum64 (fmap cost_basis g) in
  let current_value := series_sum64 (fmap current_value g) in
  let pnl_abs := series_sum64 (fmap pnl_abs g) in
  let pnl_pct := fillna0 (fdiv64 pnl_abs cost_basis) in
  mkAggRow k shares cost_basis current_value pnl_abs pnl_pct.

Definition agg64 (df : list ValuationRow) : list AggRow :=
  fmap (agg_row64 df) (group_keys df).

(** [agg['allocation_pct']] on float64. *)
Definition allocation_pct64 (agg : list AggRow) : list float :=
  let total_value := series_sum64 (fmap agg_current_value agg) in
  fmap (fun a =>
         fdiv64 (agg_current_value a)
                (if is_zero total_value then one else total_value))
      agg.

(** A binary64 number: rounding leaves it as it is. *)
Definition binary64 (x : float) : bool :=
  match x with
  | Finite q => float_eqb (round64 q) (Finite q)
  | _ => true
  end.

(** The unit roundoff [2^-53] of binary64, and half the smallest positive
    binary64 number, [2^-1075]. *)
Definition unit_roundoff : Qc := Q2Qc (pow2 (-53)).
Definition underflow_unit : Qc := Q2Qc (pow2 (-1075)).

(** A multiple of the smallest positive binary64 number. *)
Definition on_grid (q : Qc) : Prop :=
  exists z : Z, (q == inject_Z z * pow2 (-1074))%Q.

(** An integer as a float64 value. *)
Definition whole (z : Z) : Qc := Q2Qc (inject_Z z).




(** The sum of the finite cells of a column, as a rational (not
    rounded). *)
Definition exact_sum (l : list float) : Qc := finite_sum (tally_sum l).

(* ===================================================================== *)
(** * Properties                                                          *)
(* ===================================================================== *)

(** ** Numbers *)

Lemma float_eqb_eq (x y : float) : float_eqb x y = true <-> x = y.
Proof.
  destruct x as [a| | |], y as [b| | |]; simpl; split;
    try congruence; try discriminate.
  - intros H. f_equal. apply Qc_is_canon. by apply Qeq_bool_iff.
  - intros [= ->]. by apply Qeq_bool_iff.
Qed.

Lemma float_eqb_neq (x y : float) : float_eqb x y = false -> x <> y.
Proof.
  intros H E. apply float_eqb_eq in E. congruence.
Qed.

(** ** Distinct symbols and the price table *)

Lemma unique_elem (l : list string) (x : string) : x ∈ unique l <-> x ∈ l.
Proof.
  induction l as [|y l IH]; simpl; [done|].
  rewrite !elem_of_cons, list_elem_of_filter, IH.
  destruct (decide (x = y)); tauto.
Qed.

Lemma unique_NoDup (l : list string) : NoDup (unique l).
Proof.
  induction l as [|y l IH]; simpl; [constructor|].
  constructor.
  - rewrite list_elem_of_filter. tauto.
  - by apply NoDup_filter.
Qed.

Lemma dict_set_fresh (d : dict) (k : string) (v : float) :
  k ∉ d.*1 -> dict_set d k v = d ++ [(k, v)].
Proof.
  induction d as [|[k' v'] d IH]; simpl; [done|].
  rewrite not_elem_of_cons. intros [Hne Hnin].
  destruct (String.eqb_spec k' k); [congruence|].
  by rewrite IH.
Qed.

(** Filling a dict from a duplicate-free list of keys lists the keys in
    order, each with its value. *)
Lemma fill_dict (f : string -> float) (l : list string) (d : dict) :
  NoDup l -> (forall k, k ∈ l -> k ∉ d.*1) ->
  fold_left (fun d s => dict_set d s (f s)) l d
  = d ++ fmap (fun s => (s, f s)) l.
Proof.
  revert d. induction l as [|s l IH]; intros d Hnd Hfresh; simpl.
  - by rewrite app_nil_r.
  - apply NoDup_cons in Hnd as [Hs Hnd].
    rewrite dict_set_fresh by (apply Hfresh; left).
    rewrite IH; [by rewrite <- app_assoc|done|].
    intros k Hk. rewrite fmap_app, elem_of_app. simpl.
    rewrite list_elem_of_singleton.
    intros [Hin | ->]; [|done].
    revert Hin. apply Hfresh. by right.
Qed.

Lemma fetch_prices_table (yf : yfinance) (positions : list Position) :
  fetch_prices yf positions
  = fmap (fun s => (s, cli_quote yf s)) (unique (fmap symbol positions)).
Proof.
  unfold fetch_prices. destruct positions as [|p l]; [done|].
  cbn [df_empty]. rewrite fill_dict; [done|apply unique_NoDup|].
  intros k _. simpl. apply not_elem_of_nil.
Qed.

Lemma fetch_current_prices_table (yf : yfinance) (symbols : list string) :
  NoDup symbols ->
  fetch_current_prices yf symbols
  = fmap (fun s => (s, dash_quote yf s)) symbols.
Proof.
  intros Hnd. unfold fetch_current_prices.
  rewrite fill_dict; [done|done|]. intros k _. simpl. apply not_elem_of_nil.
Qed.

(** In a table with one line per key, the lines of a key. *)
Lemma table_lines (f : string -> float) (ks : list string) (k : string) :
  NoDup ks ->
  filter (fun kv : string * float => kv.1 = k) (fmap (fun s => (s, f s)) ks)
  = if decide (k ∈ ks) then [(k, f k)] else [].
Proof.
  induction ks as [|s ks IH]; intros Hnd.
  - by rewrite decide_False by apply not_elem_of_nil.
  - apply NoDup_cons in Hnd as [Hs Hnd].
    rewrite fmap_cons, filter_cons. cbn [fst]. rewrite IH by done.
    destruct (decide (s = k)) as [->|Hne];
      destruct (decide (k ∈ ks)) as [Hin|Hnin];
      destruct (decide (k ∈ _ :: ks)) as [Hc|Hc];
      try done; exfalso; revert Hc; rewrite elem_of_cons; intuition congruence.
Qed.

(** The left merge with the fetched prices keeps the table line by line. *)
Lemma merge_fetch_prices (yf : yfinance) (positions : list Position) :
  merge positions (fetch_prices yf positions)
  = fmap (fun p => (p, cli_quote yf (symbol p))) positions.
Proof.
  rewrite fetch_prices_table. unfold merge.
  generalize (eq_refl (fmap symbol positions)).
  generalize (fmap symbol positions) at 1 3. intros syms Hs.
  assert (Hall : forall p, p ∈ positions -> symbol p ∈ unique syms).
  { intros p Hp. rewrite unique_elem, Hs. by apply list_elem_of_fmap_2. }
  clear Hs. induction positions as [|p l IH]; [done|].
  cbn [flat_map fmap list_fmap]. rewrite table_lines by apply unique_NoDup.
  rewrite decide_True by (apply Hall; left).
  cbn [app]. f_equal. apply IH. intros q Hq. apply Hall. by right.
Qed.

Lemma summary_rows (yf : yfinance) (positions : list Position) :
  summary_positions (summary yf positions)
  = fmap (fun p => summary_row (p, cli_quote yf (symbol p))) positions.
Proof.
  unfold summary. destruct positions as [|p l] eqn:E; [done|].
  cbn [df_empty summary_positions].
  rewrite merge_fetch_prices, <- list_fmap_compose. done.
Qed.

Lemma PortfolioAnalyzer_map (df : list Position) :
  PortfolioAnalyzer df = fmap upper_symbol df.
Proof. by destruct df. Qed.

Lemma floats_eqb_eq (l1 l2 : list float) : floats_eqb l1 l2 = true -> l1 = l2.
Proof.
  unfold floats_eqb. rewrite andb_true_iff, bool_decide_eq_true.
  revert l2. induction l1 as [|x l1 IH]; intros [|y l2] [Hlen Hall];
    try done.
  simpl in *. apply andb_true_iff in Hall as [Hxy Hall].
  apply float_eqb_eq in Hxy as ->. f_equal. apply IH. split; [lia|done].
Qed.

(** Closed equations between floats, and between columns of floats. *)
Ltac float_compute :=
  first [ apply float_eqb_eq; vm_compute; reflexivity
        | apply floats_eqb_eq; vm_compute; reflexivity
        | apply float_eqb_neq; vm_compute; reflexivity ].

(** ** The per-position metrics *)

(** What the division yields on a line whose cost basis is 0, from a finite
    current value [v]: an infinity of the sign of [v], NaN when [v] is 0
    too; [fillna(0)] repairs the second case only. *)
Lemma pnl_pct_zero_cost_basis (v : Qc) :
  let pnl_abs := fsub (Finite v) zero in
  fdiv pnl_abs zero = inf_of (sign v) /\
  fillna0 (fdiv pnl_abs zero)
  = match sign v with Eq => zero | c => inf_of c end.
Proof.
  cbv zeta. unfold fsub, zero. simpl.
  replace (v + - 0) with v by ring.
  by destruct (sign v).
Qed.

(** C1 (the code departs from the claim).  A lot entered with a cost per
    share of 0 has cost basis 0; with a quoted price of 5 both the command
    line's [summary] and the dashboard's metric block compute a [pnl_pct]
    of plus infinity, not 0: [fillna(0)] on the dashboard replaces NaN
    only, and [summary] has no guard at all.  A lot of 0 shares gets NaN
    from [summary] and 0 from the dashboard. *)
Theorem C1_zero_cost_basis_pnl_pct :
  let yf : yfinance := fun _ => mkTicker (History [num 5]) (Info None) in
  let gift := mkPosition 1 "AAPL" (num 10) (num 0) "2024-01-02" (Some "") in
  let none := mkPosition 1 "AAPL" (num 0) (num 100) "2024-01-02" (Some "") in
  let cli p := summary_positions (summary yf (PortfolioAnalyzer [p])) in
  let dash p := dashboard_metrics (fetch_current_prices yf ["AAPL"]) [p] in
  (cost_basis <$> cli gift = [zero] /\ pnl_pct <$> cli gift = [PInf]) /\
  (cost_basis <$> dash gift = [zero] /\ pnl_pct <$> dash gift = [PInf]) /\
  (cost_basis <$> cli none = [zero] /\ pnl_pct <$> cli none = [NaN]) /\
  (cost_basis <$> dash none = [zero] /\ pnl_pct <$> dash none = [zero]).
Proof.
  cbv zeta. repeat split; float_compute.
Qed.

(** C2, as first stated, fails: for an empty table [summary] does not
    return a table and three totals equal to 0. *)
Lemma C2_summary_empty_has_no_totals :
  summary (fun _ => mkTicker HistoryRaises InfoRaises) (PortfolioAnalyzer [])
  <> Summary [] zero zero zero.
Proof. discriminate. Qed.

(** C2 (amended).  For an empty positions table [summary] returns the
    empty dict, with neither a table nor totals, whatever the price source
    does; the [view] command then prints "No positions." and nothing else,
    and the dashboard stops before computing anything. *)
Theorem C2_empty_portfolio (yf : yfinance) (seq : Z) :
  summary yf (PortfolioAnalyzer []) = EmptyDict /\
  summary_positions (summary yf (PortfolioAnalyzer [])) = [] /\
  main_view yf (mkDB [] seq) = [PrintLine "No positions."] /\
  dashboard yf (mkDB [] seq) = None.
Proof. done. Qed.

(** C4.  The metric computation keeps the table line by line: the rows of
    [summary] are the positions of the analyzer (the caller's positions
    with the symbol uppercased) in the same order, each with the metrics
    of its own quote, and the dashboard's rows are the positions in the
    same order for any price mapping; so the lengths agree and row [i] is
    computed from position [i].  Nothing depends on whether a price could
    be obtained.  (For an empty table [summary] returns no table at all,
    which reads as no rows.) *)
Theorem C4_metrics_keep_order (yf : yfinance) (prices : dict)
    (df : list Position) :
  let rows := summary_positions (summary yf (PortfolioAnalyzer df)) in
  let drows := dashboard_metrics prices df in
  (length rows = length df /\
   position <$> rows = upper_symbol <$> df /\
   forall i : nat,
     rows !! i =
     (fun p => summary_row (upper_symbol p, cli_quote yf (upper (symbol p))))
       <$> df !! i) /\
  (length drows = length df /\
   position <$> drows = df /\
   forall i : nat, drows !! i = dashboard_row prices <$> df !! i).
Proof.
  cbv zeta. rewrite summary_rows, PortfolioAnalyzer_map.
  unfold dashboard_metrics. rewrite <- !list_fmap_compose.
  rewrite !length_fmap.
  repeat split; try (intros i; by rewrite list_lookup_fmap).
  rewrite <- (list_fmap_id df) at 2. apply list_fmap_ext. by intros _ p _.
Qed.

(** ** Symbols without a price *)

Lemma cli_quote_unobtainable (yf : yfinance) (s : string) :
  cli_unobtainable (yf s) -> cli_quote yf s = zero.
Proof. unfold cli_quote. by intros [-> | ->]. Qed.

Lemma dash_quote_unobtainable (yf : yfinance) (s : string) :
  dash_unobtainable (yf s) -> dash_quote yf s = zero.
Proof.
  unfold dash_quote. by intros [-> | [-> [-> | ->]]].
Qed.

Lemma dict_get_table (f : string -> float) (ks : list string) (k : string) :
  k ∈ ks -> dict_get ((fun s => (s, f s)) <$> ks) k = Some (f k).
Proof.
  induction ks as [|s ks IH]; [by intros ?%elem_of_nil|].
  rewrite elem_of_cons. intros Hk. cbn [fmap list_fmap dict_get].
  destruct (String.eqb_spec s k) as [->|Hne]; [done|].
  apply IH. destruct Hk; congruence.
Qed.

(** The dashboard's rows, line by line. *)
Lemma dashboard_rows (yf : yfinance) (df : list Position) :
  dashboard_metrics (fetch_current_prices yf (unique (symbol <$> df))) df
  = (fun p => dashboard_row [(symbol p, dash_quote yf (symbol p))] p) <$> df.
Proof.
  unfold dashboard_metrics.
  rewrite fetch_current_prices_table by apply unique_NoDup.
  apply list_fmap_ext. intros _ p Hp%list_elem_of_lookup_2.
  unfold dashboard_row, series_map. simpl.
  rewrite dict_get_table, String.eqb_refl; [done|].
  rewrite unique_elem. by apply list_elem_of_fmap_2.
Qed.

Lemma read_positions_df_fmap (db : PortfolioDB) :
  read_positions_df db = upper_symbol <$> positions_table db.
Proof. unfold read_positions_df. by destruct (positions_table db). Qed.

Lemma dashboard_df (yf : yfinance) (db : PortfolioDB) (d : Dashboard) :
  dashboard yf db = Some d ->
  dash_df d
  = (fun p => dashboard_row [(symbol p, dash_quote yf (symbol p))] p)
      <$> read_positions_df db.
Proof.
  unfold dashboard. destruct (df_empty _); [done|].
  intros [= <-]. cbn [dash_df]. apply dashboard_rows.
Qed.

Lemma fmul_zero_r (sh : float) : is_finite sh -> fmul sh zero = zero.
Proof.
  destruct sh as [q| | |]; try done. intros _.
  unfold zero. simpl. by rewrite Qcmult_0_r.
Qed.

Lemma fsub_zero_l (x : float) : fsub zero x = fneg x.
Proof.
  unfold fsub, zero. destruct x as [c| | |]; simpl; try done.
  by rewrite Qcplus_0_l.
Qed.

Lemma summary_nonempty (yf : yfinance) (p : Position) (l : list Position) :
  exists tv tc tp,
    summary yf (p :: l)
    = Summary (summary_positions (summary yf (p :: l))) tv tc tp.
Proof. unfold summary. cbn [df_empty summary_positions]. eauto. Qed.

(** C5, as first stated, fails for a lot whose share count is not a finite
    number: the quote is 0, and infinity times 0 is NaN, not 0. *)
Lemma C5_infinite_shares_unpriced :
  let yf : yfinance := fun _ => mkTicker HistoryRaises InfoRaises in
  let p := mkPosition 1 "AAPL" PInf (num 100) "2024-01-02" (Some "") in
  cli_unobtainable (yf "AAPL") /\
  current_price <$> summary_positions (summary yf (PortfolioAnalyzer [p]))
    = [zero] /\
  current_value <$> summary_positions (summary yf (PortfolioAnalyzer [p]))
    = [NaN] /\
  NaN <> zero.
Proof.
  cbv zeta. split; [by left|]. repeat split; float_compute.
Qed.

(** C5 (amended).  For a held position with a finite share count whose
    symbol has no obtainable price (the history call raises or is empty
    and, on the dashboard, the fallback gives nothing), the quote used is
    0, the position's [current_value] is 0 and its [pnl_abs] is the
    negated [cost_basis]; the valuation still succeeds, with one row per
    position, on the command line and on the dashboard. *)
Theorem C5_unpriced_symbol (yf : yfinance) (db : PortfolioDB) (i : nat)
    (p : Position) :
  positions_table db !! i = Some p ->
  is_finite (shares p) ->
  (cli_unobtainable (yf (upper (symbol p))) ->
   cli_quote yf (upper (symbol p)) = zero /\
   exists rows tv tc tp r,
     summary yf (PortfolioAnalyzer (list_positions db))
       = Summary rows tv tc tp /\
     length rows = length (positions_table db) /\
     rows !! i = Some r /\ position r = upper_symbol p /\
     current_price r = zero /\ current_value r = zero /\
     pnl_abs r = fneg (cost_basis r)) /\
  (dash_unobtainable (yf (upper (symbol p))) ->
   dash_quote yf (upper (symbol p)) = zero /\
   exists d r,
     dashboard yf db = Some d /\
     length (dash_df d) = length (positions_table db) /\
     dash_df d !! i = Some r /\ position r = upper_symbol p /\
     current_price r = zero /\ current_value r = zero /\
     pnl_abs r = fneg (cost_basis r)).
Proof.
  intros Hi Hfin. split; intros Hun.
  - pose proof (cli_quote_unobtainable _ _ Hun) as Hq. split; [done|].
    unfold list_positions. rewrite PortfolioAnalyzer_map.
    destruct (positions_table db) as [|p0 l] eqn:Htab; [done|].
    destruct (summary_nonempty yf (upper_symbol p0) (upper_symbol <$> l))
      as (tv & tc & tp & Hs).
    rewrite fmap_cons, Hs. clear Hs.
    change (upper_symbol p0 :: (upper_symbol <$> l))
      with (upper_symbol <$> p0 :: l).
    eexists _, tv, tc, tp, _. split; [done|].
    rewrite summary_rows, <- list_fmap_compose, length_fmap.
    split; [done|]. rewrite list_lookup_fmap, Hi.
    cbn [fmap option_fmap option_map].
    split; [done|]. unfold compose. cbn. rewrite Hq.
    by rewrite (fmul_zero_r _ Hfin), fsub_zero_l.
  - pose proof (dash_quote_unobtainable _ _ Hun) as Hq. split; [done|].
    destruct (dashboard yf db) as [d|] eqn:Hd.
    + pose proof (dashboard_df _ _ _ Hd) as Hrows.
      rewrite read_positions_df_fmap, <- list_fmap_compose in Hrows.
      eexists d, _. split; [done|]. rewrite Hrows, length_fmap.
      split; [done|]. rewrite list_lookup_fmap, Hi.
      cbn [fmap option_fmap option_map]. split; [done|].
      unfold compose, dashboard_row, series_map. cbn.
      rewrite String.eqb_refl. cbn. rewrite Hq.
      by rewrite (fmul_zero_r _ Hfin), fsub_zero_l.
    + exfalso. revert Hd. unfold dashboard.
      rewrite read_positions_df_fmap.
      by destruct (positions_table db).
Qed.

Lemma C5_unpriced_symbol_witness :
  let yf : yfinance := fun _ => mkTicker HistoryRaises InfoRaises in
  let p := mkPosition 1 "msft" (num 3) (num 100) "2024-01-02" (Some "") in
  let db := mkDB [p] 1 in
  (exists rows tv tc tp r,
     summary yf (PortfolioAnalyzer (list_positions db))
       = Summary rows tv tc tp /\
     length rows = length (positions_table db) /\
     rows !! 0%nat = Some r /\ position r = upper_symbol p /\
     current_price r = zero /\ current_value r = zero /\
     pnl_abs r = fneg (cost_basis r)) /\
  (exists d r,
     dashboard yf db = Some d /\
     length (dash_df d) = length (positions_table db) /\
     dash_df d !! 0%nat = Some r /\ position r = upper_symbol p /\
     current_price r = zero /\ current_value r = zero /\
     pnl_abs r = fneg (cost_basis r)).
Proof.
  cbv zeta.
  destruct (C5_unpriced_symbol
              (fun _ => mkTicker HistoryRaises InfoRaises)
              (mkDB [mkPosition 1 "msft" (num 3) (num 100) "2024-01-02"
                                (Some "")] 1)
              0%nat
              (mkPosition 1 "msft" (num 3) (num 100) "2024-01-02" (Some ""))
              eq_refl I) as [Hcli Hdash].
  split.
  - apply Hcli. left. reflexivity.
  - apply Hdash. left. reflexivity.
Defined.

(** ** Sums of float columns *)

Lemma tadd_comm (a b : tally) : tadd a b = tadd b a.
Proof.
  unfold tadd. f_equal; [apply orb_comm | apply orb_comm | apply Qcplus_comm].
Qed.

Lemma tadd_assoc (a b c : tally) : tadd a (tadd b c) = tadd (tadd a b) c.
Proof.
  unfold tadd. simpl.
  f_equal; [apply orb_assoc | apply orb_assoc | apply Qcplus_assoc].
Qed.

Lemma tadd_zero_l (a : tally) : tadd tzero a = a.
Proof. destruct a. unfold tadd. simpl. by rewrite Qcplus_0_l. Qed.

Lemma tadd_zero_r (a : tally) : tadd a tzero = a.
Proof. by rewrite tadd_comm, tadd_zero_l. Qed.

Lemma tally_sum_app (l1 l2 : list float) :
  tally_sum (l1 ++ l2) = tadd (tally_sum l1) (tally_sum l2).
Proof.
  induction l1 as [|x l1 IH]; simpl.
  - by rewrite tadd_zero_l.
  - fold (tally_sum (l1 ++ l2)) (tally_sum l1). by rewrite IH, tadd_assoc.
Qed.

Lemma tally_sum_skipna (l : list float) :
  tally_sum (filter (fun x => isnan x = false) l) = tally_sum l.
Proof.
  induction l as [|x l IH]; [done|].
  rewrite filter_cons. destruct x; simpl; fold (tally_sum l);
    rewrite <- ?IH; try done.
  by rewrite tadd_zero_l.
Qed.

(** One step of the running sum. *)
Lemma fadd_resolve (t : tally) (x : float) :
  isnan x = false -> fadd (resolve t) x = resolve (tadd t (tally_of x)).
Proof.
  destruct t as [[] [] q], x as [b| | |]; unfold resolve; simpl; try done;
    intros _; by rewrite ?Qcplus_0_r.
Qed.

Lemma fold_fadd_resolve (l : list float) (t : tally) :
  Forall (fun x => isnan x = false) l ->
  fold_left fadd l (resolve t) = resolve (tadd t (tally_sum l)).
Proof.
  revert t. induction l as [|x l IH]; intros t Hl; simpl.
  - by rewrite tadd_zero_r.
  - apply Forall_cons in Hl as [Hx Hl]. fold (tally_sum l).
    rewrite fadd_resolve, IH by done. by rewrite tadd_assoc.
Qed.

(** [Series.sum] is the float of the column's tally. *)
Lemma series_sum_resolve (l : list float) :
  series_sum l = resolve (tally_sum l).
Proof.
  unfold series_sum. change zero with (resolve tzero).
  rewrite fold_fadd_resolve.
  - by rewrite tadd_zero_l, tally_sum_skipna.
  - apply Forall_forall. by intros x [Hx _]%list_elem_of_filter.
Qed.







(** ** Grouping by symbol *)

Lemma group_keys_NoDup (df : list ValuationRow) : NoDup (group_keys df).
Proof.
  unfold group_keys. rewrite merge_sort_Permutation. apply unique_NoDup.
Qed.

Lemma group_keys_elem (df : list ValuationRow) (k : string) :
  k ∈ group_keys df <-> exists r, r ∈ df /\ row_symbol r = k.
Proof.
  unfold group_keys. rewrite merge_sort_Permutation, unique_elem.
  rewrite list_elem_of_fmap. split; intros (r & H1 & H2); eauto.
Qed.

(** The group-by lists the symbols in increasing order. *)
Lemma group_keys_sorted (df : list ValuationRow) :
  Sorted string_le (group_keys df).
Proof.
  unfold group_keys. apply Sorted_merge_sort.
  intros a b. unfold string_le.
  destruct (String.leb_total a b) as [H|H]; rewrite H; [by left|by right].
Qed.

Lemma group_cons (r : ValuationRow) (df : list ValuationRow) (k : string) :
  group (r :: df) k
  = if decide (row_symbol r = k) then r :: group df k else group df k.
Proof. unfold group. by rewrite filter_cons. Qed.

Lemma group_elem (df : list ValuationRow) (k : string) (r : ValuationRow) :
  r ∈ group df k <-> row_symbol r = k /\ r ∈ df.
Proof. unfold group. by rewrite list_elem_of_filter. Qed.


Section Column.
Variable col : ValuationRow -> float.



End Column.

(** ** The symbols of the aggregate *)

Lemma agg_symbols (df : list ValuationRow) :
  agg_symbol <$> agg df = group_keys df.
Proof.
  unfold agg. rewrite <- list_fmap_compose.
  rewrite <- (list_fmap_id (group_keys df)) at 2.
  by apply list_fmap_ext.
Qed.

(** ** Division by one, and non-negative values *)

Lemma fdiv_one (x : float) : fdiv x one = x.
Proof.
  destruct x as [q| | |]; try done. unfold one. simpl.
  f_equal. apply (right_id 1 Qcdiv).
Qed.

Lemma fnonneg_spec (x : float) :
  fnonneg x = true -> exists q, x = Finite q /\ 0 <= q.
Proof.
  destruct x as [q| | |]; try done. simpl. intros H. exists q.
  split; [done|]. apply Qcge_alt. unfold sign in H. by destruct (q ?= 0).
Qed.

(** Non-negative finite values that sum to 0 are all 0. *)
Lemma nonneg_sum_zero (l : list float) :
  Forall (fun x => fnonneg x = true) l ->
  0 <= finite_sum (tally_sum l) /\
  (finite_sum (tally_sum l) = 0 -> Forall (fun x => x = zero) l).
Proof.
  induction l as [|x l IH]; intros Hl.
  - split; [done|]. by constructor.
  - apply Forall_cons in Hl as [Hx Hl]. destruct (IH Hl) as [Hs Hz].
    apply fnonneg_spec in Hx as (q & -> & Hq).
    cbn [tally_sum foldr]. fold (tally_sum l). simpl.
    split; [by apply Qcplus_nonneg_nonneg|].
    intros Hsum.
    assert (Hq0 : q = 0).
    { apply Qcle_antisym; [|done]. rewrite <- Hsum.
      rewrite <- (Qcplus_0_r q) at 1. by apply Qcplus_le_mono_l. }
    subst q. rewrite Qcplus_0_l in Hsum. constructor; [done|by apply Hz].
Qed.

(** ** Storage *)

Lemma next_id_gt (db : PortfolioDB) :
  (sqlite_sequence db < next_id db)%Z /\
  Forall (fun r => (row_id r < next_id db)%Z) (positions_table db).
Proof.
  unfold next_id. destruct db as [tab sq].
  cbn [positions_table sqlite_sequence].
  induction tab as [|r tab [IH1 IH2]].
  - split; [simpl; lia|constructor].
  - rewrite fmap_cons. cbn [foldr].
    set (m := foldr Z.max sq (row_id <$> tab)) in *.
    split; [lia|]. constructor; [lia|].
    eapply Forall_impl; [exact IH2|]. simpl. intros; lia.
Qed.

Lemma insert_row_ok (db : PortfolioDB) (sym : string) (sh cps : float)
    (date : string) (nt : option string) :
  db_ok db -> db_ok (insert_row db sym sh cps date nt).
Proof.
  intros [Hnd Hle]. destruct (next_id_gt db) as [Hsq Hlt].
  unfold db_ok, insert_row. simpl. split.
  - rewrite fmap_app. simpl. apply NoDup_app. split; [done|].
    split; [|apply NoDup_singleton].
    intros i Hi ->%list_elem_of_singleton.
    apply list_elem_of_fmap in Hi as (r & Hr & Hin).
    rewrite Forall_forall in Hlt. specialize (Hlt r Hin). lia.
  - apply Forall_app. split; [|by repeat constructor].
    eapply Forall_impl; [exact Hlt|]. simpl. intros; lia.
Qed.

Lemma delete_position_ok (db : PortfolioDB) (position_id : Z) :
  db_ok db -> db_ok (delete_position db position_id).
Proof.
  intros [Hnd Hle]. unfold db_ok, delete_position. simpl. split.
  - eapply sublist_NoDup; [exact Hnd|].
    apply fmap_sublist, sublist_filter.
  - rewrite Forall_forall in *. intros r [_ Hr]%list_elem_of_filter.
    by apply Hle.
Qed.

Lemma import_csv_ok (df : list CsvRow) (db : PortfolioDB) :
  db_ok db -> db_ok (import_csv_to_db db df).
Proof.
  unfold import_csv_to_db. revert db.
  induction df as [|r df IH]; intros db Hok; [done|].
  simpl. apply IH. by apply insert_row_ok.
Qed.

Lemma apply_op_ok (db : PortfolioDB) (op : db_op) :
  db_ok db -> db_ok (apply_op db op).
Proof.
  intros Hok. destruct op; simpl.
  - by apply insert_row_ok.
  - by apply insert_row_ok.
  - by apply import_csv_ok.
  - by apply delete_position_ok.
Qed.

(** Every database the programs can build respects the primary key. *)
Lemma run_ok (ops : list db_op) : db_ok (run ops).
Proof.
  unfold run.
  assert (H0 : db_ok init_db) by (split; constructor).
  revert H0. generalize init_db.
  induction ops as [|op ops IH]; intros db Hok; [done|].
  simpl. apply IH. by apply apply_op_ok.
Qed.

(** Deleting by a key removes at most one row of a table with distinct
    keys. *)
Lemma filter_key_length {A : Type} (f : A -> Z) (x : Z) (l : list A) :
  NoDup (f <$> l) ->
  (length l <= S (length (filter (fun r => f r <> x) l)))%nat.
Proof.
  induction l as [|r l IH]; [simpl; lia|].
  rewrite fmap_cons. intros [Hr Hnd]%NoDup_cons.
  rewrite filter_cons. destruct (decide (f r <> x)) as [Hne|He].
  - simpl. specialize (IH Hnd). lia.
  - apply dec_stable in He. subst x.
    assert (Hall : filter (fun r0 => f r0 <> f r) l = l).
    { clear IH Hnd. induction l as [|r' l IH]; [done|].
      rewrite fmap_cons, not_elem_of_cons in Hr. destruct Hr as [Hne Hr].
      rewrite filter_cons_True by congruence. f_equal. by apply IH. }
    rewrite Hall. simpl. lia.
Qed.

Lemma filter_key_absent {A : Type} (f : A -> Z) (x : Z) (l : list A) :
  x ∉ f <$> l -> filter (fun r => f r <> x) l = l.
Proof.
  induction l as [|r l IH]; [done|].
  rewrite fmap_cons, not_elem_of_cons. intros [Hne Hx].
  rewrite filter_cons_True by congruence. f_equal. by apply IH.
Qed.

Lemma upper_ascii_idempotent (c : ascii) :
  upper_ascii (upper_ascii c) = upper_ascii c.
Proof. by destruct c as [[] [] [] [] [] [] [] []]. Qed.

Lemma upper_idempotent (s : string) : upper (upper s) = upper s.
Proof.
  induction s as [|c s IH]; [done|].
  simpl. by rewrite upper_ascii_idempotent, IH.
Qed.

(** The two add paths persist the uppercased symbol. *)
Lemma add_paths_persist_upper (db : PortfolioDB) (sym : string)
    (sh cps : float) (date nt : string) :
  symbol <$> positions_table (add_position db sym sh cps date nt)
    = (symbol <$> positions_table db) ++ [upper sym] /\
  symbol <$> positions_table (add_trade db sym sh cps date nt)
    = (symbol <$> positions_table db) ++ [upper sym] /\
  upper (upper sym) = upper sym.
Proof.
  unfold add_position, add_trade, insert_row. simpl.
  rewrite fmap_app. by rewrite upper_idempotent.
Qed.

(** C8 (the code departs from the claim).  [import_csv_to_db] persists
    the symbol of a CSV line as it is written: after importing a line for
    "aapl" the stored symbol is "aapl", which is not its uppercasing
    "AAPL".  The two other write paths, [add_position] and [add_trade],
    store "AAPL" for the same input; the lowercase row is only uppercased
    when it is read back by the dashboard or by [PortfolioAnalyzer]. *)
Theorem C8_import_csv_keeps_symbol_case :
  let line := mkCsvRow "aapl" (num 10) (num 150) "2024-01-02" None in
  let imported := run [ImportCsv [line]] in
  symbol <$> positions_table imported = ["aapl"] /\
  upper "aapl" = "AAPL" /\
  "aapl" <> upper "aapl" /\
  symbol <$> positions_table
    (run [AddPosition "aapl" (num 10) (num 150) "2024-01-02" ""])
    = ["AAPL"] /\
  symbol <$> positions_table
    (run [AddTrade "aapl" (num 10) (num 150) "2024-01-02" ""])
    = ["AAPL"] /\
  symbol <$> list_positions imported = ["aapl"] /\
  symbol <$> read_positions_df imported = ["AAPL"] /\
  symbol <$> PortfolioAnalyzer (list_positions imported) = ["AAPL"].
Proof.
  cbv zeta. repeat split; try (vm_compute; reflexivity).
  vm_compute. discriminate.
Qed.

(** ** The analyzer and the caller's frame *)

Lemma fresh_ne (h : gmap nat frame) (r : ref) :
  r ∈ dom h -> fresh (dom h) <> r.
Proof. intros Hr E. apply (is_fresh (dom h)). by rewrite E at 1. Qed.

Lemma df_empty_fmap {A B : Type} (f : A -> B) (l : list A) :
  df_empty (f <$> l) = df_empty l.
Proof. by destruct l. Qed.

Lemma PortfolioAnalyzer_init_run (h : gmap nat frame) (df_positions : ref)
    (rows : list Position) :
  h !! df_positions = Some (PositionsFrame rows) ->
  PortfolioAnalyzer_init df_positions h
  = Some (fresh (dom h),
          <[fresh (dom h) := PositionsFrame (PortfolioAnalyzer rows)]> h).
Proof.
  intros Hdf. unfold PortfolioAnalyzer_init, copy, bind, load, alloc.
  rewrite Hdf. cbv zeta. rewrite lookup_insert_eq.
  destruct rows as [|p l]; [done|].
  cbn [df_empty PortfolioAnalyzer]. unfold store, ret.
  by rewrite insert_insert_eq.
Qed.

Lemma getitem_insert (h : gmap nat frame) (df : ref)
    (rows : list (Position * float)) (columns : list (string * list float))
    (c : string) :
  getitem df c (<[df := MergedFrame rows columns]> h)
  = match frame_column rows columns c with
    | Some col => Some (col, <[df := MergedFrame rows columns]> h)
    | None => None
    end.
Proof.
  unfold getitem, bind, load. rewrite lookup_insert_eq.
  by destruct (frame_column rows columns c).
Qed.

Lemma setitem_insert (h : gmap nat frame) (df : ref)
    (rows : list (Position * float)) (columns : list (string * list float))
    (c : string) (col : list float) :
  setitem df c col (<[df := MergedFrame rows columns]> h)
  = Some (tt, <[df := MergedFrame rows (dict_set columns c col)]> h).
Proof.
  unfold setitem, bind, load, store. rewrite lookup_insert_eq.
  by rewrite insert_insert_eq.
Qed.

(** The four assigned columns, line by line. *)
Lemma valuation_rows_columns (rows : list (Position * float)) :
  let sh := (fun pq : Position * float => shares pq.1) <$> rows in
  let cps := (fun pq : Position * float => cost_per_share pq.1) <$> rows in
  let price := snd <$> rows in
  let cv := zip_with fmul sh price in
  let cb := zip_with fmul sh cps in
  let pa := zip_with fsub cv cb in
  let pp := zip_with fdiv pa cb in
  zip_with (fun pq c => mkValuationRow pq.1 pq.2 c.1.1.1 c.1.1.2 c.1.2 c.2)
           rows (zip (zip (zip cv cb) pa) pp)
  = summary_row <$> rows /\
  cv = current_value <$> (summary_row <$> rows) /\
  cb = cost_basis <$> (summary_row <$> rows).
Proof.
  cbv zeta. induction rows as [|[p price] rows (IH1 & IH2 & IH3)]; [done|].
  cbn [fmap list_fmap zip_with fst snd]. rewrite IH1.
  split; [done|]. split; f_equal; done.
Qed.

Lemma summary_st_run (yf : yfinance) (h : gmap nat frame) (self : ref)
    (rows : list Position) :
  h !! self = Some (PositionsFrame rows) ->
  exists s h',
    summary_st yf self h = Some (s, h') /\
    (forall r, r ∈ dom h -> h' !! r = h !! r) /\
    read_summary h' s = Some (summary yf rows).
Proof.
  intros Hself. unfold summary_st. unfold bind at 1. unfold load at 1.
  rewrite Hself. destruct rows as [|p l].
  - exists EmptyDictRef, h. by cbn.
  - cbn [df_empty]. set (rows := p :: l) in *.
    (* prices = self.fetch_prices() *)
    unfold bind at 1. unfold fetch_prices_st, bind, load, alloc.
    rewrite Hself. cbv zeta.
    set (r2 := fresh (dom h)).
    set (h2 := <[r2 := PricesFrame (fetch_prices yf rows)]> h).
    assert (Hr2 : r2 <> self).
    { apply fresh_ne. by apply elem_of_dom_2 in Hself. }
    (* df = self.positions.merge(prices, ...) *)
    unfold merge_st, bind, load, alloc.
    assert (Hs2 : h2 !! self = Some (PositionsFrame rows))
      by (unfold h2; by rewrite lookup_insert_ne).
    assert (Hp2 : h2 !! r2 = Some (PricesFrame (fetch_prices yf rows)))
      by apply lookup_insert_eq.
    rewrite Hs2, Hp2. cbv zeta.
    set (r3 := fresh (dom h2)).
    set (m := merge rows (fetch_prices yf rows)).
    (* the column assignments and the totals *)
    repeat (first [rewrite getitem_insert | rewrite setitem_insert];
            cbn [frame_column String.eqb Ascii.eqb Bool.eqb dict_get
                 dict_set]).
    unfold ret. eexists _, _. split; [reflexivity|].
    destruct (valuation_rows_columns m) as (Hrows & Hcv & Hcb).
    cbv zeta in Hrows, Hcv, Hcb. split.
    + intros r Hr.
      assert (Hr' : r ∈ dom h2) by (unfold h2; set_solver).
      rewrite lookup_insert_ne by (by apply fresh_ne).
      unfold h2. by rewrite lookup_insert_ne by (by apply fresh_ne).
    + unfold read_summary. rewrite lookup_insert_eq.
      unfold valuation_rows.
      cbn [String.eqb Ascii.eqb Bool.eqb dict_get dict_set].
      rewrite Hrows, Hcv, Hcb. done.
Qed.

(** C9.  Building a [PortfolioAnalyzer] on the caller's frame and calling
    [summary] runs without error and leaves the caller's frame, and every
    other frame that existed before, as it was.  The analyzer works on a
    frame of its own, a new object that holds the positions with their
    symbols uppercased, and the table of the summary is a new frame too;
    read back from the store, the summary is the one computed on the
    uppercased positions. *)
Theorem C9_summary_leaves_input_unchanged (yf : yfinance)
    (h : gmap nat frame) (df_positions : ref) (rows : list Position) :
  h !! df_positions = Some (PositionsFrame rows) ->
  exists self s h',
    analyze yf df_positions h = Some ((self, s), h') /\
    h' !! df_positions = Some (PositionsFrame rows) /\
    (forall r, r ∈ dom h -> h' !! r = h !! r) /\
    self <> df_positions /\
    h' !! self = Some (PositionsFrame (upper_symbol <$> rows)) /\
    read_summary h' s = Some (summary yf (PortfolioAnalyzer rows)).
Proof.
  intros Hdf. unfold analyze, bind.
  rewrite (PortfolioAnalyzer_init_run h df_positions rows Hdf).
  cbv beta iota.
  set (r1 := fresh (dom h)).
  set (h1 := <[r1 := PositionsFrame (PortfolioAnalyzer rows)]> h).
  assert (Hr1 : h1 !! r1 = Some (PositionsFrame (PortfolioAnalyzer rows)))
    by apply lookup_insert_eq.
  destruct (summary_st_run yf h1 r1 (PortfolioAnalyzer rows) Hr1)
    as (s & h' & Hrun & Hframe & Hread).
  change (<[r1 := PositionsFrame (PortfolioAnalyzer rows)]> h) with h1.
  destruct (summary_st yf r1 h1) as [[s0 h0]|]; [|done].
  injection Hrun as -> ->. unfold ret.
  assert (Hin : df_positions ∈ dom h) by (by apply elem_of_dom_2 in Hdf).
  assert (Hold : forall r, r ∈ dom h -> h' !! r = h !! r).
  { intros r Hr. rewrite Hframe by (unfold h1; set_solver).
    unfold h1. rewrite lookup_insert_ne; [done|]. by apply fresh_ne. }
  exists r1, s, h'. split; [done|]. split; [by rewrite Hold|].
  split; [done|]. split; [by apply fresh_ne|]. split; [|done].
  rewrite <- PortfolioAnalyzer_map, <- Hr1.
  apply Hframe. by apply elem_of_dom_2 in Hr1.
Qed.

Lemma C9_summary_leaves_input_unchanged_witness :
  let yf : yfinance := fun _ => mkTicker (History [num 5]) (Info None) in
  let rows := [mkPosition 1 "aapl" (num 10) (num 3) "2024-01-02" None] in
  let h : gmap nat frame := {[ 7%nat := PositionsFrame rows ]} in
  exists self s h',
    analyze yf 7%nat h = Some ((self, s), h') /\
    h' !! 7%nat = Some (PositionsFrame rows) /\
    (forall r, r ∈ dom h -> h' !! r = h !! r) /\
    self <> 7%nat /\
    h' !! self = Some (PositionsFrame (upper_symbol <$> rows)) /\
    read_summary h' s = Some (summary yf (PortfolioAnalyzer rows)).
Proof.
  cbv zeta.
  apply (C9_summary_leaves_input_unchanged
           (fun _ => mkTicker (History [num 5]) (Info None))
           {[ 7%nat := PositionsFrame
                [mkPosition 1 "aapl" (num 10) (num 3) "2024-01-02" None] ]}
           7%nat
           [mkPosition 1 "aapl" (num 10) (num 3) "2024-01-02" None]).
  reflexivity.
Defined.

(* ===================================================================== *)
(** * Further properties of the storage layer                             *)
(* ===================================================================== *)

Lemma run_app (ops1 ops2 : list db_op) :
  run (ops1 ++ ops2) = fold_left apply_op ops2 (run ops1).
Proof. unfold run. apply fold_left_app. Qed.


Lemma insert_row_inv (db : PortfolioDB) (sym : string) (sh cps : float)
    (date : string) (nt : option string) :
  db_inv db -> db_inv (insert_row db sym sh cps date nt).
Proof.
  intros (H0 & Hs & Hb). destruct (next_id_gt db) as [Hsq Hlt].
  unfold db_inv, insert_row. cbn [positions_table sqlite_sequence].
  split; [lia|]. split.
  - rewrite fmap_app. apply StronglySorted_app_2; [|done|].
    + intros i j Hi ->%list_elem_of_singleton.
      apply list_elem_of_fmap in Hi as (r & -> & Hin).
      rewrite Forall_forall in Hlt. by apply Hlt.
    + simpl. repeat constructor.
  - apply Forall_app. split.
    + eapply Forall_impl; [exact Hb|]. simpl. intros; lia.
    + repeat constructor; simpl; lia.
Qed.

Lemma delete_position_inv (db : PortfolioDB) (position_id : Z) :
  db_inv db -> db_inv (delete_position db position_id).
Proof.
  intros (H0 & Hs & Hb). unfold db_inv, delete_position.
  cbn [positions_table sqlite_sequence]. split; [done|]. split.
  - revert Hs. generalize (positions_table db). intros l.
    induction l as [|r l IH]; [done|].
    rewrite fmap_cons. intros Hs. inversion Hs as [|? ? Hl Hr]; subst.
    rewrite filter_cons. destruct (decide _); [|by apply IH].
    rewrite fmap_cons. constructor; [by apply IH|].
    rewrite Forall_forall in *. intros i Hi. apply Hr.
    apply list_elem_of_fmap in Hi as (r' & -> & Hin).
    apply list_elem_of_filter in Hin as [_ Hin].
    by apply list_elem_of_fmap_2.
  - rewrite Forall_forall in *. intros r [_ Hr]%list_elem_of_filter.
    by apply Hb.
Qed.

Lemma import_csv_inv (df : list CsvRow) (db : PortfolioDB) :
  db_inv db -> db_inv (import_csv_to_db db df).
Proof.
  unfold import_csv_to_db. revert db.
  induction df as [|r df IH]; intros db Hok; [done|].
  simpl. apply IH. by apply insert_row_inv.
Qed.

Lemma apply_op_inv (db : PortfolioDB) (op : db_op) :
  db_inv db -> db_inv (apply_op db op).
Proof.
  intros Hok. destruct op; simpl.
  - by apply insert_row_inv.
  - by apply insert_row_inv.
  - by apply import_csv_inv.
  - by apply delete_position_inv.
Qed.

Lemma fold_apply_op_inv (ops : list db_op) (db : PortfolioDB) :
  db_inv db -> db_inv (fold_left apply_op ops db).
Proof.
  revert db. induction ops as [|op ops IH]; intros db Hok; [done|].
  simpl. apply IH. by apply apply_op_inv.
Qed.

Lemma run_inv (ops : list db_op) : db_inv (run ops).
Proof.
  apply fold_apply_op_inv. unfold db_inv, init_db. simpl.
  split; [done|]. split; constructor.
Qed.

(** No operation lowers the id counter. *)
Lemma apply_op_sequence (db : PortfolioDB) (op : db_op) :
  (sqlite_sequence db <= sqlite_sequence (apply_op db op))%Z.
Proof.
  assert (Hins : forall d sym sh cps date nt,
    (sqlite_sequence d
     <= sqlite_sequence (insert_row d sym sh cps date nt))%Z).
  { intros d *. destruct (next_id_gt d) as [Hsq _]. simpl. lia. }
  destruct op; cbn [apply_op].
  - apply Hins.
  - apply Hins.
  - unfold import_csv_to_db. revert db.
    induction df as [|r df IH]; intros db; [simpl; lia|].
    simpl. etrans; [|apply IH]. apply Hins.
  - simpl. lia.
Qed.

Lemma fold_apply_op_sequence (ops : list db_op) (db : PortfolioDB) :
  (sqlite_sequence db <= sqlite_sequence (fold_left apply_op ops db))%Z.
Proof.
  revert db. induction ops as [|op ops IH]; intros db; [simpl; lia|].
  simpl. etrans; [apply (apply_op_sequence db op)|apply IH].
Qed.


(** X4.  Deleting is idempotent, deletions of two ids commute, and after
    a deletion no row has the deleted id. *)
Theorem delete_position_idempotent_commutes (db : PortfolioDB) (i j : Z) :
  delete_position (delete_position db i) i = delete_position db i /\
  delete_position (delete_position db i) j
    = delete_position (delete_position db j) i /\
  i ∉ row_id <$> positions_table (delete_position db i).
Proof.
  unfold delete_position. cbn [positions_table sqlite_sequence].
  split; [|split].
  - f_equal. apply list_filter_filter_r. tauto.
  - f_equal. rewrite !list_filter_filter.
    induction (positions_table db) as [|r l IH]; [done|].
    rewrite !filter_cons, IH.
    destruct (decide (row_id r <> j /\ row_id r <> i)),
             (decide (row_id r <> i /\ row_id r <> j)); tauto.
  - intros (r & Hr & [Hne _]%list_elem_of_filter)%list_elem_of_fmap.
    by apply Hne.
Qed.

Lemma upper_fold_apply_op (ops : list db_op) (db : PortfolioDB) :
  no_import ops = true ->
  Forall (fun r => symbol r = upper (symbol r)) (positions_table db) ->
  Forall (fun r => symbol r = upper (symbol r))
         (positions_table (fold_left apply_op ops db)).
Proof.
  revert db. induction ops as [|op ops IH]; intros db Hno Hup; [done|].
  cbn [no_import forallb] in Hno. apply andb_true_iff in Hno as [Hop Hno].
  cbn [fold_left]. apply IH; [done|].
  destruct op; try done; cbn [apply_op].
  - unfold add_position, insert_row. cbn [positions_table].
    apply Forall_app. split; [done|]. repeat constructor. simpl.
    by rewrite upper_idempotent.
  - unfold add_trade, insert_row. cbn [positions_table].
    apply Forall_app. split; [done|]. repeat constructor. simpl.
    by rewrite upper_idempotent.
  - unfold delete_position. cbn [positions_table].
    rewrite Forall_forall in *. intros r [_ Hr]%list_elem_of_filter.
    by apply Hup.
Qed.

Lemma upper_symbol_fixed (l : list Position) :
  Forall (fun r => symbol r = upper (symbol r)) l -> upper_symbol <$> l = l.
Proof.
  induction 1 as [|r l Hr Hl IH]; [done|].
  rewrite fmap_cons, IH. f_equal. destruct r. unfold upper_symbol.
  simpl in *. by rewrite <- Hr.
Qed.

(** X5.  On a database built with [add_position], [add_trade] and
    [delete_position] only, every stored symbol is its own uppercasing,
    so the dashboard's read and the analyzer's table are the stored rows
    themselves. *)
Theorem add_paths_keep_symbols_uppercase (ops : list db_op) :
  no_import ops = true ->
  Forall (fun r => symbol r = upper (symbol r)) (positions_table (run ops)) /\
  read_positions_df (run ops) = positions_table (run ops) /\
  PortfolioAnalyzer (list_positions (run ops)) = positions_table (run ops).
Proof.
  intros Hno.
  assert (Hup : Forall (fun r => symbol r = upper (symbol r))
                       (positions_table (run ops))).
  { unfold run. apply upper_fold_apply_op; [done|]. constructor. }
  split; [done|].
  rewrite read_positions_df_fmap, PortfolioAnalyzer_map.
  unfold list_positions. by rewrite upper_symbol_fixed.
Qed.

Lemma add_paths_keep_symbols_uppercase_witness :
  let ops := [AddPosition "aapl" (num 10) (num 150) "2024-01-02" "";
              AddTrade "Msft" (num 2) (num 300) "2024-01-03" "lot";
              DeletePosition 1] in
  Forall (fun r => symbol r = upper (symbol r)) (positions_table (run ops)) /\
  read_positions_df (run ops) = positions_table (run ops) /\
  PortfolioAnalyzer (list_positions (run ops)) = positions_table (run ops).
Proof.
  cbv zeta.
  apply (add_paths_keep_symbols_uppercase
           [AddPosition "aapl" (num 10) (num 150) "2024-01-02" "";
            AddTrade "Msft" (num 2) (num 300) "2024-01-03" "lot";
            DeletePosition 1]).
  reflexivity.
Defined.

(* ===================================================================== *)
(** * Further properties of the reads and of the price fetch              *)
(* ===================================================================== *)

(** X6.  Both reads return the stored rows in order with the symbol
    uppercased and every other column as stored, whatever wrote the rows;
    they agree with each other, every symbol they return is its own
    uppercasing, and normalising twice changes nothing. *)
Theorem reads_normalise_symbols (db : PortfolioDB) :
  let df := read_positions_df db in
  df = PortfolioAnalyzer (list_positions db) /\
  Forall (fun p => symbol p = upper (symbol p)) df /\
  symbol <$> df = upper <$> (symbol <$> positions_table db) /\
  row_id <$> df = row_id <$> positions_table db /\
  shares <$> df = shares <$> positions_table db /\
  cost_per_share <$> df = cost_per_share <$> positions_table db /\
  trade_date <$> df = trade_date <$> positions_table db /\
  note <$> df = note <$> positions_table db /\
  PortfolioAnalyzer df = df.
Proof.
  cbv zeta. unfold list_positions.
  rewrite !PortfolioAnalyzer_map, read_positions_df_fmap.
  rewrite <- !list_fmap_compose. split; [done|]. split.
  - apply Forall_fmap, Forall_forall. intros p _. simpl.
    by rewrite upper_idempotent.
  - repeat split; try done.
    apply list_fmap_ext. intros _ p _. unfold compose, upper_symbol.
    simpl. by rewrite upper_idempotent.
Qed.

Lemma dict_set_same (f : string -> float) (ks : list string) (s : string) :
  s ∈ ks ->
  dict_set ((fun k => (k, f k)) <$> ks) s (f s) = (fun k => (k, f k)) <$> ks.
Proof.
  induction ks as [|k ks IH]; [by intros ?%elem_of_nil|].
  rewrite elem_of_cons. intros Hs. cbn [fmap list_fmap dict_set].
  destruct (String.eqb_spec k s) as [->|Hne]; [done|].
  f_equal. apply IH. destruct Hs; congruence.
Qed.

Lemma table_keys (f : string -> float) (ks : list string) :
  ((fun k => (k, f k)) <$> ks).*1 = ks.
Proof.
  rewrite <- list_fmap_compose. rewrite <- (list_fmap_id ks) at 2.
  by apply list_fmap_ext.
Qed.

(** Filling a dict key by key, from any list of keys: repeated keys are
    set again to the same value. *)
Lemma fill_dict_any (f : string -> float) (l ks : list string) :
  fold_left (fun d s => dict_set d s (f s)) l ((fun k => (k, f k)) <$> ks)
  = (fun k => (k, f k)) <$> (ks ++ filter (fun k => k ∉ ks) (unique l)).
Proof.
  revert ks. induction l as [|s l IH]; intros ks.
  - simpl. by rewrite app_nil_r.
  - cbn [fold_left unique]. destruct (decide (s ∈ ks)) as [Hin|Hnin].
    + rewrite dict_set_same, IH by done.
      rewrite filter_cons_False by tauto.
      rewrite list_filter_filter_l; [done|]. intros k Hk ->. tauto.
    + rewrite dict_set_fresh by (by rewrite table_keys).
      change [(s, f s)] with ((fun k => (k, f k)) <$> [s]).
      rewrite <- fmap_app, IH. f_equal. rewrite <- app_assoc. f_equal.
      rewrite filter_cons_True by done. cbn [app]. f_equal.
      rewrite list_filter_filter. apply list_filter_iff.
      intros k. rewrite elem_of_app, list_elem_of_singleton. tauto.
Qed.

Lemma dict_get_table_None (f : string -> float) (ks : list string)
    (k : string) :
  k ∉ ks -> dict_get ((fun s => (s, f s)) <$> ks) k = None.
Proof.
  induction ks as [|s ks IH]; [done|].
  rewrite not_elem_of_cons. intros [Hne Hk]. cbn [fmap list_fmap dict_get].
  destruct (String.eqb_spec s k) as [->|_]; [done|]. by apply IH.
Qed.

Lemma dict_get_table_decide (f : string -> float) (l : list string)
    (k : string) :
  dict_get ((fun s => (s, f s)) <$> unique l) k
  = if decide (k ∈ l) then Some (f k) else None.
Proof.
  destruct (decide (k ∈ l)) as [Hin|Hnin].
  - apply dict_get_table. by apply unique_elem.
  - apply dict_get_table_None. by rewrite unique_elem.
Qed.

(** X7.  The dashboard's price fetch, for any list of symbols (repeats
    allowed): the dict has one entry per distinct symbol, in order of
    first appearance, holding that symbol's quote; looking up a symbol of
    the list gives its quote, and mapping any other symbol gives a missing
    value. *)
Theorem fetch_current_prices_lookup (yf : yfinance) (symbols : list string) :
  fetch_current_prices yf symbols
    = (fun s => (s, dash_quote yf s)) <$> unique symbols /\
  NoDup (fetch_current_prices yf symbols).*1 /\
  (forall s, dict_get (fetch_current_prices yf symbols) s
             = if decide (s ∈ symbols) then Some (dash_quote yf s)
               else None) /\
  (forall s, series_map (fetch_current_prices yf symbols) s
             = if decide (s ∈ symbols) then dash_quote yf s else NaN).
Proof.
  assert (Htab : fetch_current_prices yf symbols
                 = (fun s => (s, dash_quote yf s)) <$> unique symbols).
  { unfold fetch_current_prices.
    change (@nil (string * float))
      with ((fun s => (s, dash_quote yf s)) <$> @nil string).
    rewrite fill_dict_any. cbn [app]. f_equal.
    induction (unique symbols) as [|k ks IH]; [done|].
    rewrite filter_cons_True by apply not_elem_of_nil. by f_equal. }
  split; [done|]. rewrite Htab, table_keys. split; [apply unique_NoDup|].
  split; intros s.
  - apply dict_get_table_decide.
  - unfold series_map. rewrite dict_get_table_decide. by destruct (decide _).
Qed.

(** X8.  The command line's price frame has one line per distinct held
    symbol, in order of first appearance, with that symbol's quote; no
    symbol occurs twice, a symbol that is not held has no line, and the
    frame of an empty table is empty. *)
Theorem fetch_prices_one_line_per_symbol (yf : yfinance)
    (positions : list Position) :
  (fetch_prices yf positions).*1 = unique (symbol <$> positions) /\
  NoDup (fetch_prices yf positions).*1 /\
  (forall k, dict_get (fetch_prices yf positions) k
             = if decide (k ∈ symbol <$> positions)
               then Some (cli_quote yf k) else None) /\
  fetch_prices yf [] = [].
Proof.
  rewrite fetch_prices_table, table_keys.
  split; [done|]. split; [apply unique_NoDup|]. split; [|done].
  intros k. apply dict_get_table_decide.
Qed.

Lemma last_close_app (close : list float) (price : float) :
  last_close (close ++ [price]) = Some price.
Proof.
  induction close as [|x close IH]; [done|].
  cbn [app last_close]. rewrite IH. by destruct (close ++ [price]).
Qed.

(** X9.  The two price fetches agree on every symbol except in one case:
    when the history is empty and [regularMarketPrice] is present, the
    dashboard uses that price and the command line uses 0.  Both use the
    last close of a history that has one, and 0 when the history call
    raises. *)
Theorem quotes_agree_except_fallback (yf : yfinance) (s : string) :
  match ticker_history (yf s), ticker_info (yf s) with
  | History [], Info (Some info_price) =>
      cli_quote yf s = zero /\ dash_quote yf s = info_price
  | History [], _ => cli_quote yf s = zero /\ dash_quote yf s = zero
  | HistoryRaises, _ => cli_quote yf s = zero /\ dash_quote yf s = zero
  | History close, _ =>
      cli_quote yf s = dash_quote yf s /\
      Some (cli_quote yf s) = last_close close
  end /\
  (forall close price, last_close (close ++ [price]) = Some price).
Proof.
  unfold cli_quote, dash_quote. split; [|apply last_close_app].
  destruct (ticker_history (yf s)) as [|[|x close]]; [done| |].
  - by destruct (ticker_info (yf s)) as [|[p|]].
  - destruct (last_close (x :: close)) eqn:E; [done|].
    exfalso. revert E. clear. revert x.
    induction close as [|y close IH]; intros x; [done|].
    intros E. by apply (IH y).
Qed.

(* ===================================================================== *)
(** * Further properties of the valuation                                 *)
(* ===================================================================== *)

Lemma dashboard_row_single (p : Position) (q : float) :
  dashboard_row [(symbol p, q)] p = fillna_pnl_pct (summary_row (p, q)).
Proof.
  unfold dashboard_row, series_map, fillna_pnl_pct, summary_row.
  cbn [dict_get]. by rewrite String.eqb_refl.
Qed.

Lemma dashboard_some (yf : yfinance) (db : PortfolioDB) :
  dash_df <$> dashboard yf db
  = if df_empty (positions_table db) then None
    else Some ((fun p => dashboard_row
                           [(symbol p, dash_quote yf (symbol p))] p)
                 <$> read_positions_df db).
Proof.
  destruct (dashboard yf db) as [d|] eqn:Hd.
  - rewrite <- (dashboard_df yf db d Hd). revert Hd. unfold dashboard.
    rewrite read_positions_df_fmap, df_empty_fmap.
    by destruct (df_empty (positions_table db)).
  - revert Hd. unfold dashboard.
    rewrite read_positions_df_fmap, df_empty_fmap.
    by destruct (df_empty (positions_table db)).
Qed.

(** X10.  When the two price fetches give every held symbol the same
    quote, the dashboard's rows are the rows of the command line's
    [summary] with [fillna(0)] applied to [pnl_pct]: same positions, same
    order, same price, value, cost basis and P&L. *)
Theorem dashboard_rows_are_summary_rows_filled (yf : yfinance)
    (db : PortfolioDB) :
  Forall (fun p => dash_quote yf (upper (symbol p))
                   = cli_quote yf (upper (symbol p)))
         (positions_table db) ->
  dash_df <$> dashboard yf db
  = if df_empty (positions_table db) then None
    else Some (fillna_pnl_pct
                 <$> summary_positions
                       (summary yf (PortfolioAnalyzer (list_positions db)))).
Proof.
  intros Hq. rewrite dashboard_some.
  destruct (df_empty (positions_table db)); [done|]. f_equal.
  rewrite summary_rows, PortfolioAnalyzer_map, read_positions_df_fmap.
  unfold list_positions. rewrite <- !list_fmap_compose.
  apply list_fmap_ext. intros _ p Hp%list_elem_of_lookup_2.
  rewrite Forall_forall in Hq. specialize (Hq p Hp).
  unfold compose. cbn [upper_symbol symbol]. rewrite Hq.
  apply (dashboard_row_single (upper_symbol p)).
Qed.

Lemma dashboard_rows_are_summary_rows_filled_witness :
  let yf : yfinance := fun s =>
    if String.eqb s "AAPL" then mkTicker (History [num 4; num 5]) InfoRaises
    else mkTicker HistoryRaises (Info (Some (num 7))) in
  let db := run [AddPosition "aapl" (num 10) (num 0) "2024-01-02" "";
                 AddTrade "msft" (num 2) (num 300) "2024-01-03" ""] in
  dash_df <$> dashboard yf db
  = Some (fillna_pnl_pct
            <$> summary_positions
                  (summary yf (PortfolioAnalyzer (list_positions db)))).
Proof.
  cbv zeta.
  apply (dashboard_rows_are_summary_rows_filled
           (fun s =>
              if String.eqb s "AAPL"
              then mkTicker (History [num 4; num 5]) InfoRaises
              else mkTicker HistoryRaises (Info (Some (num 7))))
           (run [AddPosition "aapl" (num 10) (num 0) "2024-01-02" "";
                 AddTrade "msft" (num 2) (num 300) "2024-01-03" ""])).
  repeat constructor.
Defined.

(** ** Sums of finite columns *)

Lemma finite_tally (l : list float) :
  Forall is_finite l ->
  has_pinf (tally_sum l) = false /\ has_ninf (tally_sum l) = false.
Proof.
  induction 1 as [|x l Hx Hl [IH1 IH2]]; [done|].
  by destruct x.
Qed.

Lemma series_sum_finite (l : list float) :
  Forall is_finite l -> series_sum l = Finite (finite_sum (tally_sum l)).
Proof.
  intros [H1 H2]%finite_tally. rewrite series_sum_resolve.
  unfold resolve. by rewrite H1, H2.
Qed.

(** ** The allocation pie *)

Lemma fnonneg_finite (l : list float) :
  forallb fnonneg l = true ->
  Forall (fun x => fnonneg x = true) l /\ Forall is_finite l.
Proof.
  intros H. rewrite forallb_forall in H. split; apply Forall_forall;
    intros x Hx%list_elem_of_In; specialize (H x Hx); [done|].
  by destruct x.
Qed.

(** Python's [sum] and pandas' [sum] agree on a column without NaN. *)
Lemma py_sum_finite (l : list float) :
  Forall is_finite l -> py_sum l = series_sum l.
Proof.
  intros Hl. unfold py_sum, series_sum. f_equal.
  induction Hl as [|x l Hx Hl IH]; [done|].
  rewrite filter_cons_True by (by destruct x). by f_equal.
Qed.

Lemma nonneg_sum_positive (l : list float) :
  Forall (fun x => fnonneg x = true) l -> Forall is_finite l ->
  is_zero (series_sum l) = false -> fpositive (series_sum l) = true.
Proof.
  intros Hnn Hfin. destruct (nonneg_sum_zero l Hnn) as [Hge _].
  rewrite series_sum_finite by done. simpl.
  set (q := finite_sum (tally_sum l)) in *. intros Hz.
  apply bool_decide_eq_false in Hz. unfold sign.
  destruct (q ?= 0) eqn:E; [|exfalso|done].
  - by apply Qceq_alt in E.
  - apply Qclt_alt in E. by apply Qcle_not_lt in Hge.
Qed.

(** X13.  The allocation pie never gets sizes that sum to 0.  For a
    non-empty column of finite, non-negative values the report and the
    dashboard choose the same sizes, one per input value and none
    negative, with a positive sum: the values themselves, or a 1 for each
    when every value is 0. *)
Theorem pie_sizes_of_nonnegative_values (sizes : list float) :
  forallb fnonneg sizes = true -> df_empty sizes = false ->
  let pie := report_pie_sizes sizes in
  dashboard_pie_sizes sizes = pie /\
  length pie = length sizes /\
  forallb fnonneg pie = true /\
  fpositive (series_sum pie) = true /\
  (pie = sizes \/
   (Forall (fun x => x = zero) sizes /\ Forall (fun x => x = one) pie)).
Proof.
  intros Hb Hne. cbv zeta. destruct (fnonneg_finite sizes Hb) as [Hnn Hfin].
  unfold dashboard_pie_sizes, report_pie_sizes.
  rewrite py_sum_finite by done. split; [done|].
  destruct (is_zero (series_sum sizes)) eqn:Hz.
  - set (ones := (fun _ : float => one) <$> sizes).
    assert (Hones : Forall (fun x => x = one) ones)
      by (apply Forall_fmap, Forall_forall; by intros).
    assert (Hb1 : forallb fnonneg ones = true).
    { apply forallb_forall. intros x Hx%list_elem_of_In.
      rewrite Forall_forall in Hones. by rewrite (Hones x Hx). }
    destruct (fnonneg_finite ones Hb1) as [Hnn1 Hfin1].
    split; [apply length_fmap|]. split; [done|]. split.
    + apply nonneg_sum_positive; try done.
      destruct (is_zero (series_sum ones)) eqn:Hz1; [|done]. exfalso.
      destruct (nonneg_sum_zero ones Hnn1) as [_ Hall].
      rewrite series_sum_finite in Hz1 by done. simpl in Hz1.
      apply bool_decide_eq_true in Hz1. specialize (Hall Hz1).
      destruct sizes as [|x l]; [done|].
      apply Forall_cons in Hall as [Hx _]. done.
    + right. split; [|done].
      apply (nonneg_sum_zero sizes Hnn).
      rewrite series_sum_finite in Hz by done. simpl in Hz.
      by apply bool_decide_eq_true in Hz.
  - split; [done|]. split; [done|]. split; [|by left].
    by apply nonneg_sum_positive.
Qed.

Lemma pie_sizes_of_nonnegative_values_witness :
  let unpriced := [zero; zero; zero] in
  let pie := report_pie_sizes unpriced in
  dashboard_pie_sizes unpriced = pie /\
  length pie = length unpriced /\
  forallb fnonneg pie = true /\
  fpositive (series_sum pie) = true /\
  (pie = unpriced \/
   (Forall (fun x => x = zero) unpriced /\ Forall (fun x => x = one) pie)).
Proof.
  cbv zeta.
  apply (pie_sizes_of_nonnegative_values [zero; zero; zero]);
    vm_compute; reflexivity.
Defined.

(* ===================================================================== *)
(** * Stripping whitespace                                                *)
(* ===================================================================== *)

Lemma lstrip_head (s : string) : head_space (lstrip s) = false.
Proof.
  induction s as [|c s IH]; [done|].
  simpl. destruct (is_space c) eqn:E; [done|]. simpl. done.
Qed.

Lemma lstrip_fixed (s : string) : head_space s = false -> lstrip s = s.
Proof. destruct s as [|c s]; [done|]. simpl. by intros ->. Qed.

Lemma rstrip_head (s : string) :
  head_space s = false -> head_space (rstrip s) = false.
Proof.
  destruct s as [|c s]; [done|]. simpl. intros Hc.
  destruct (rstrip s); [by rewrite Hc|done].
Qed.

Lemma rstrip_last (s : string) : last_space (rstrip s) = false.
Proof.
  induction s as [|c s IH]; [done|].
  simpl. destruct (rstrip s) as [|c' r].
  - by destruct (is_space c) eqn:E.
  - done.
Qed.

Lemma rstrip_fixed (s : string) : last_space s = false -> rstrip s = s.
Proof.
  induction s as [|c s IH]; [done|].
  destruct s as [|c' s].
  - simpl. by intros ->.
  - intros H. specialize (IH H). cbn [rstrip] in *. rewrite IH. done.
Qed.

Lemma is_space_upper_ascii (c : ascii) :
  is_space (upper_ascii c) = is_space c.
Proof. by destruct c as [[] [] [] [] [] [] [] []]. Qed.

Lemma head_space_upper (s : string) : head_space (upper s) = head_space s.
Proof. destruct s; [done|]. simpl. apply is_space_upper_ascii. Qed.

Lemma last_space_upper (s : string) : last_space (upper s) = last_space s.
Proof.
  induction s as [|c s IH]; [done|].
  destruct s as [|c' s]; [apply is_space_upper_ascii|].
  exact IH.
Qed.

(* ===================================================================== *)
(** * The left merge and the printed view                                 *)
(* ===================================================================== *)

Lemma merge_cons (p : Position) (left : list Position)
    (right : list (string * float)) :
  merge (p :: left) right
  = match filter (fun kv => kv.1 = symbol p) right with
    | [] => [(p, NaN)]
    | ms => (fun kv => (p, kv.2)) <$> ms
    end ++ merge left right.
Proof. done. Qed.

(** The lines of a key in a table without repeated keys. *)
Lemma filter_key_dict_get (right : list (string * float)) (k : string) :
  NoDup right.*1 ->
  filter (fun kv : string * float => kv.1 = k) right
  = match dict_get right k with Some v => [(k, v)] | None => [] end.
Proof.
  induction right as [|[k' v'] right IH]; [done|].
  rewrite fmap_cons. intros [Hk Hnd]%NoDup_cons.
  rewrite filter_cons. cbn [fst dict_get].
  destruct (String.eqb_spec k' k) as [->|Hne].
  - rewrite decide_True by done. f_equal.
    clear IH Hnd. induction right as [|[k2 v2] right IH]; [done|].
    rewrite fmap_cons, not_elem_of_cons in Hk. destruct Hk as [Hne Hk].
    rewrite filter_cons_False; [by apply IH|].
    cbn [fst]. intros E. apply Hne. by symmetry.
  - rewrite decide_False by done. by apply IH.
Qed.


(* ===================================================================== *)
(** * Further properties of the aggregation                               *)
(* ===================================================================== *)

Lemma concat_bump (g : string -> list ValuationRow) (r : ValuationRow)
    (s : string) (ks : list string) :
  NoDup ks -> s ∈ ks ->
  concat ((fun k => if decide (s = k) then r :: g k else g k) <$> ks)
  ≡ₚ r :: concat (g <$> ks).
Proof.
  induction ks as [|k ks IH]; [by intros _ ?%elem_of_nil|].
  intros [Hk Hnd]%NoDup_cons Hs. rewrite !fmap_cons. cbn [concat].
  destruct (decide (s = k)) as [->|Hne].
  - replace ((fun k0 => if decide (k = k0) then r :: g k0 else g k0) <$> ks)
      with (g <$> ks); [done|].
    apply list_fmap_ext. intros _ k' Hk'%list_elem_of_lookup_2.
    rewrite decide_False; [done|]. by intros ->.
  - apply elem_of_cons in Hs as [?|Hs]; [done|].
    rewrite IH by done. by rewrite Permutation_middle.
Qed.

Lemma groups_cover (df : list ValuationRow) (ks : list string) :
  NoDup ks -> (forall r, r ∈ df -> row_symbol r ∈ ks) ->
  concat (group df <$> ks) ≡ₚ df.
Proof.
  intros Hnd. induction df as [|r df IH]; intros Hks.
  - clear. induction ks as [|k ks IH]; [done|].
    rewrite fmap_cons. cbn [concat]. by rewrite IH.
  - rewrite <- IH at 2 by (intros r' Hr'; apply Hks; by right).
    rewrite <- (concat_bump _ r (row_symbol r)) by
      (try done; apply Hks; left).
    replace (group (r :: df) <$> ks)
      with ((fun k => if decide (row_symbol r = k)
                      then r :: group df k else group df k) <$> ks);
      [done|].
    apply list_fmap_ext. intros _ k _. by rewrite group_cons.
Qed.

(** X17.  The group-by partitions the table: put one after the other, the
    groups hold every row exactly once; no group is empty, every row of a
    group has the group's symbol, and the aggregate lists the symbols in
    increasing order, each once. *)
Theorem groups_partition_the_table (df : list ValuationRow) :
  concat (group df <$> group_keys df) ≡ₚ df /\
  Forall (fun k => group df k <> [] /\
                   Forall (fun r => row_symbol r = k) (group df k))
         (group_keys df) /\
  Sorted string_le (agg_symbol <$> agg df) /\
  NoDup (agg_symbol <$> agg df) /\
  length (agg df) = length (group_keys df).
Proof.
  split; [|split; [|split; [|split]]].
  - apply groups_cover; [apply group_keys_NoDup|].
    intros r Hr. apply group_keys_elem. eauto.
  - apply Forall_forall. intros k (r & Hr & Hs)%group_keys_elem. split.
    + intros Hnil. assert (Hin : r ∈ group df k) by (by apply group_elem).
      rewrite Hnil in Hin. by apply elem_of_nil in Hin.
    + apply Forall_forall. by intros r' [Hs' _]%group_elem.
  - rewrite agg_symbols. apply group_keys_sorted.
  - rewrite agg_symbols. apply group_keys_NoDup.
  - unfold agg. apply length_fmap.
Qed.

(** ** Allocation of non-negative values *)

(** Each of finitely many non-negative values is at most their sum. *)
Lemma nonneg_le_sum (l : list float) :
  Forall (fun x => fnonneg x = true) l ->
  Forall (fun x => exists q, x = Finite q /\ 0 <= q /\
                             q <= finite_sum (tally_sum l)) l.
Proof.
  induction l as [|x l IH]; intros Hl; [constructor|].
  apply Forall_cons in Hl as [Hx Hl].
  destruct (nonneg_sum_zero l Hl) as [Hs _].
  apply fnonneg_spec in Hx as (q & -> & Hq).
  cbn [tally_sum foldr]. fold (tally_sum l). simpl. constructor.
  - exists q. split; [done|]. split; [done|].
    rewrite <- (Qcplus_0_r q) at 1. by apply Qcplus_le_mono_l.
  - eapply Forall_impl; [apply (IH Hl)|].
    intros y (qy & -> & Hy0 & Hy). exists qy. split; [done|]. split; [done|].
    etrans; [exact Hy|].
    rewrite <- (Qcplus_0_l (finite_sum (tally_sum l))) at 1.
    by apply Qcplus_le_mono_r.
Qed.

(** X18.  When no symbol's [current_value] is negative or non-finite,
    every allocation is a finite number between 0 and 1. *)
Theorem allocation_between_0_and_1 (agg : list AggRow) :
  forallb (fun a => fnonneg (agg_current_value a)) agg = true ->
  Forall (fun x => exists q, x = Finite q /\ 0 <= q /\ q <= 1)
         (allocation_pct agg).
Proof.
  intros Hb.
  assert (Hb' : forallb fnonneg (agg_current_value <$> agg) = true).
  { apply forallb_forall. intros x Hx%list_elem_of_In.
    apply list_elem_of_fmap in Hx as (a & -> & Ha).
    rewrite forallb_forall in Hb. apply Hb. by apply list_elem_of_In. }
  destruct (fnonneg_finite _ Hb') as [Hnn Hfin].
  pose proof (nonneg_le_sum _ Hnn) as Hle.
  destruct (nonneg_sum_zero _ Hnn) as [Hge Hzero].
  unfold allocation_pct. rewrite series_sum_finite by done.
  set (t := finite_sum (tally_sum (agg_current_value <$> agg))) in *.
  cbn [is_zero]. apply Forall_fmap.
  rewrite Forall_fmap in Hle. eapply Forall_impl; [exact Hle|].
  intros a (q & Hq & Hq0 & Hqt). unfold compose in *. rewrite Hq.
  destruct (bool_decide (t = 0)) eqn:E.
  - apply bool_decide_eq_true in E. rewrite fdiv_one. exists q.
    split; [done|]. split; [done|]. rewrite E in Hqt. etrans; [exact Hqt|].
    done.
  - apply bool_decide_eq_false in E. simpl. rewrite decide_False by done.
    exists (q / t). split; [done|].
    assert (Ht : 0 < t).
    { apply Qcle_lt_or_eq in Hge as [?|Ht]; [done|]. by rewrite <- Ht in E. }
    assert (Hinv : 0 < / t) by (by apply Qcinv_pos).
    unfold Qcdiv. split.
    + apply Qcmult_nonneg_nonneg; [done|]. by apply Qclt_le_weak.
    + rewrite <- (Qcmult_inv_r t) by done.
      apply Qcmult_le_mono_nonneg_r; [by apply Qclt_le_weak|done].
Qed.

Lemma allocation_between_0_and_1_witness :
  let lot1 := mkPosition 1 "MSFT" (num 6) (num 100) "2024-01-02" None in
  let lot2 := mkPosition 2 "AAPL" (num 2) (num 50) "2024-01-03" None in
  Forall (fun x => exists q, x = Finite q /\ 0 <= q /\ q <= 1)
    (allocation_pct
       (agg (dashboard_metrics [("MSFT", num 10); ("AAPL", num 20)]
                               [lot1; lot2]))).
Proof.
  cbv zeta.
  apply (allocation_between_0_and_1
    (agg (dashboard_metrics [("MSFT", num 10); ("AAPL", num 20)]
            [mkPosition 1 "MSFT" (num 6) (num 100) "2024-01-02" None;
             mkPosition 2 "AAPL" (num 2) (num 50) "2024-01-03" None]))).
  vm_compute. reflexivity.
Defined.

(* ===================================================================== *)
(** * Columns of zeros                                                    *)
(* ===================================================================== *)

Lemma series_sum_zeros (l : list float) :
  Forall (fun x => x = zero) l -> series_sum l = zero.
Proof.
  intros Hl.
  assert (Hfin : Forall is_finite l).
  { eapply Forall_impl; [exact Hl|]. by intros x ->. }
  rewrite series_sum_finite by done. unfold zero. f_equal.
  induction Hl as [|x l -> Hl IH]; [done|].
  cbn [tally_sum foldr]. fold (tally_sum l). simpl.
  apply Forall_cons in Hfin as [_ Hfin]. rewrite IH by done. ring.
Qed.

Lemma dash_unobtainable_cli (t : Ticker) :
  dash_unobtainable t -> cli_unobtainable t.
Proof. intros [H|[H _]]; [by left|by right]. Qed.

(* ===================================================================== *)
(** * Grouping after a read                                               *)
(* ===================================================================== *)

(** X20.  The dashboard groups by the uppercased symbol: lots whose stored
    symbols differ only in letter case fall into one line of the
    aggregate.  The aggregate has a line for a symbol exactly when some
    stored position has it as its uppercased symbol, and every symbol of
    the aggregate is its own uppercasing. *)
Theorem dashboard_groups_by_uppercased_symbol (yf : yfinance)
    (db : PortfolioDB) :
  match dashboard yf db with
  | None => positions_table db = []
  | Some d =>
      (forall k, k ∈ agg_symbol <$> dash_agg d
                 <-> exists p, p ∈ positions_table db /\
                               upper (symbol p) = k) /\
      Forall (fun k => k = upper k) (agg_symbol <$> dash_agg d) /\
      NoDup (agg_symbol <$> dash_agg d) /\
      row_symbol <$> dash_df d = upper <$> (symbol <$> positions_table db)
  end.
Proof.
  unfold dashboard. rewrite read_positions_df_fmap, df_empty_fmap.
  destruct (positions_table db) as [|p0 l] eqn:Htab; [done|].
  cbn [df_empty]. rewrite <- Htab in *. clear Htab p0 l.
  rewrite dashboard_rows, <- list_fmap_compose.
  set (df := _ <$> positions_table db). cbn [dash_agg dash_df].
  assert (Hsym : row_symbol <$> df = upper <$> (symbol <$> positions_table db)).
  { unfold df. rewrite <- !list_fmap_compose. by apply list_fmap_ext. }
  assert (Hk : forall k, k ∈ agg_symbol <$> agg df
                         <-> exists p, p ∈ positions_table db /\
                                       upper (symbol p) = k).
  { intros k. rewrite agg_symbols, group_keys_elem. split.
    - intros (r & Hr & <-).
      assert (Hin : row_symbol r ∈ row_symbol <$> df)
        by (by apply list_elem_of_fmap_2).
      rewrite Hsym, <- list_fmap_compose in Hin.
      apply list_elem_of_fmap in Hin as (p & Hp & Hin). eauto.
    - intros (p & Hp & <-).
      assert (Hin : upper (symbol p) ∈ row_symbol <$> df).
      { rewrite Hsym, <- list_fmap_compose.
        by apply (list_elem_of_fmap_2 (upper ∘ symbol)). }
      apply list_elem_of_fmap in Hin as (r & Hr & Hin). eauto. }
  split; [done|]. split; [|split; [|done]].
  - apply Forall_forall. intros k (p & _ & <-)%Hk.
    by rewrite upper_idempotent.
  - rewrite agg_symbols. apply group_keys_NoDup.
Qed.

(* ===================================================================== *)
(** * Storage calls                                                       *)
(* ===================================================================== *)

(** C10, as first stated, fails for an id that SQLite's INTEGER cannot
    hold: [delete --id 9223372036854775808] matches no stored row, and the
    call does not succeed, it raises [OverflowError]. *)
Lemma C10_delete_position_id_out_of_range :
  let db := run [AddPosition "aapl" (num 10) (num 150) "2024-01-02" ""] in
  let position_id := 9223372036854775808%Z in
  (position_id ∉ row_id <$> positions_table db) /\
  delete_position_call db position_id = inl OverflowError.
Proof.
  cbv zeta. split; [|reflexivity].
  vm_compute. intros H. inversion H as [|? ? ? H']; subst. inversion H'.
Qed.

(** C10 (amended).  On every table (its ids are distinct: they are the
    primary key), [delete_position] raises [OverflowError] exactly when
    the id is outside the signed 64-bit range, and nothing is changed
    then.  For an id within the range the call succeeds; with an id that
    no stored row has, it leaves the database unchanged; in general the
    rows that remain are exactly the rows with another id, in their
    order, at most one row is gone, and the id counter is untouched.
    (Every database that the write operations build has distinct ids:
    [run_ok].) *)
Theorem C10_delete_position (db : PortfolioDB) (position_id : Z) :
  NoDup (row_id <$> positions_table db) ->
  match delete_position_call db position_id with
  | inl e => e = OverflowError /\ sqlite_integer position_id = false
  | inr db' =>
      sqlite_integer position_id = true /\
      (position_id ∉ row_id <$> positions_table db -> db' = db) /\
      (forall r, r ∈ positions_table db'
                 <-> r ∈ positions_table db /\ row_id r <> position_id) /\
      positions_table db' `sublist_of` positions_table db /\
      (length (positions_table db) <= S (length (positions_table db')))%nat /\
      sqlite_sequence db' = sqlite_sequence db
  end.
Proof.
  intros Hnd. unfold delete_position_call.
  destruct (sqlite_integer position_id); [|done].
  destruct db as [tab sq]. unfold delete_position. simpl in *.
  split; [done|]. split; [|split; [|split; [|split]]].
  - intros Habs. f_equal. by apply filter_key_absent.
  - intros r. rewrite list_elem_of_filter. tauto.
  - apply sublist_filter.
  - by apply filter_key_length.
  - done.
Qed.

Lemma C10_delete_position_witness :
  let db := run [AddPosition "aapl" (num 10) (num 150) "2024-01-02" "";
                 AddPosition "msft" (num 2) (num 300) "2024-01-03" ""] in
  delete_position_call db 7 = inr db /\
  exists db', delete_position_call db 1 = inr db' /\
              row_id <$> positions_table db' = [2%Z].
Proof.
  cbv zeta.
  pose proof (C10_delete_position
           (run [AddPosition "aapl" (num 10) (num 150) "2024-01-02" "";
                 AddPosition "msft" (num 2) (num 300) "2024-01-03" ""]) 7)
    as H7.
  pose proof (C10_delete_position
           (run [AddPosition "aapl" (num 10) (num 150) "2024-01-02" "";
                 AddPosition "msft" (num 2) (num 300) "2024-01-03" ""]) 1)
    as H1.
  assert (Hnd : NoDup (row_id <$> positions_table
            (run [AddPosition "aapl" (num 10) (num 150) "2024-01-02" "";
                  AddPosition "msft" (num 2) (num 300) "2024-01-03" ""]))).
  { vm_compute. repeat constructor.
    - intros H. inversion H as [|? ? ? H']; subst. inversion H'.
    - intros H. inversion H. }
  specialize (H7 Hnd). specialize (H1 Hnd).
  split.
  - destruct (delete_position_call _ 7) as [e|db'].
    + destruct H7 as [_ H7]. vm_compute in H7. discriminate.
    + destruct H7 as (_ & H7 & _). f_equal. apply H7.
      vm_compute. intros H. inversion H as [|? ? ? H']; subst.
      inversion H' as [|? ? ? H'']; subst. inversion H''.
  - exists (delete_position
              (run [AddPosition "aapl" (num 10) (num 150) "2024-01-02" "";
                    AddPosition "msft" (num 2) (num 300) "2024-01-03" ""]) 1).
    split; reflexivity.
Defined.

(** X1.  Ids are handed out in increasing order and never reused: on
    every database built with [add_position], [add_trade] and
    [delete_position] the ids are positive and strictly increasing along
    the table, and whatever of these is done afterwards (deletions
    included) the id counter does not decrease and the next id is larger
    than every id the table held at any earlier moment. *)
Theorem ids_increase_and_are_never_reused (ops1 ops2 : list db_op) :
  no_import (ops1 ++ ops2) = true ->
  let before := run ops1 in
  let after := run (ops1 ++ ops2) in
  StronglySorted Z.lt (row_id <$> positions_table after) /\
  Forall (fun r => (0 < row_id r <= sqlite_sequence after)%Z)
         (positions_table after) /\
  (sqlite_sequence before <= sqlite_sequence after)%Z /\
  Forall (fun r => (row_id r < next_id after)%Z) (positions_table before).
Proof.
  intros _. cbv zeta. destruct (run_inv (ops1 ++ ops2)) as (_ & Hs & Hb).
  destruct (run_inv ops1) as (_ & _ & Hb1).
  destruct (next_id_gt (run (ops1 ++ ops2))) as [Hsq _].
  assert (Hmono : (sqlite_sequence (run ops1)
                   <= sqlite_sequence (run (ops1 ++ ops2)))%Z).
  { rewrite run_app. apply fold_apply_op_sequence. }
  repeat split; try done.
  eapply Forall_impl; [exact Hb1|]. simpl. intros; lia.
Qed.

Lemma ids_increase_and_are_never_reused_witness :
  let ops1 := [AddPosition "aapl" (num 10) (num 150) "2024-01-02" "";
               AddTrade "msft" (num 2) (num 300) "2024-01-03" ""] in
  let ops2 := [DeletePosition 2;
               AddPosition "nvda" (num 1) (num 900) "2024-01-04" ""] in
  row_id <$> positions_table (run ops1) = [1%Z; 2%Z] /\
  row_id <$> positions_table (run (ops1 ++ ops2)) = [1%Z; 3%Z] /\
  Forall (fun r => (row_id r < next_id (run (ops1 ++ ops2)))%Z)
         (positions_table (run ops1)).
Proof.
  cbv zeta. split; [reflexivity|]. split; [reflexivity|].
  apply (ids_increase_and_are_never_reused
           [AddPosition "aapl" (num 10) (num 150) "2024-01-02" "";
            AddTrade "msft" (num 2) (num 300) "2024-01-03" ""]
           [DeletePosition 2;
            AddPosition "nvda" (num 1) (num 900) "2024-01-04" ""]).
  reflexivity.
Defined.









(* ===================================================================== *)
(** * The dashboard's "Add trade" button                                  *)
(* ===================================================================== *)

Lemma append_cons (c : ascii) (l r : string) :
  String.append (String c l) r = String c (String.append l r).
Proof. reflexivity. Qed.

Lemma all_space_app (l r : string) :
  all_space (String.append l r) = all_space l && all_space r.
Proof.
  induction l as [|c l IH]; [done|].
  rewrite append_cons. cbn [all_space]. by rewrite IH, andb_assoc.
Qed.

(** [lstrip] removes a whitespace prefix and nothing else. *)
Lemma lstrip_split (s : string) :
  exists l, s = String.append l (lstrip s) /\ all_space l = true.
Proof.
  induction s as [|c s (l & Hl & Hsp)].
  - by exists EmptyString.
  - cbn [lstrip]. destruct (is_space c) eqn:Hc.
    + exists (String c l). rewrite append_cons. split; [by f_equal|].
      cbn [all_space]. by rewrite Hc.
    + by exists EmptyString.
Qed.

(** [rstrip] removes a whitespace suffix and nothing else. *)
Lemma rstrip_split (s : string) :
  exists r, s = String.append (rstrip s) r /\ all_space r = true.
Proof.
  induction s as [|c s (r & Hr & Hsp)].
  - by exists EmptyString.
  - cbn [rstrip]. destruct (rstrip s) as [|c' s'] eqn:E.
    + change (String.append EmptyString r) with r in Hr. subst s.
      destruct (is_space c) eqn:Hc.
      * exists (String c r). split; [done|]. cbn [all_space].
        by rewrite Hc.
      * exists r. done.
    + exists r. rewrite append_cons. split; [by f_equal|done].
Qed.

Lemma strip_split (s : string) :
  exists l r, s = String.append l (String.append (strip s) r) /\
              all_space l = true /\ all_space r = true.
Proof.
  destruct (lstrip_split s) as (l & Hl & Hsl).
  destruct (rstrip_split (lstrip s)) as (r & Hr & Hsr).
  exists l, r. unfold strip. by rewrite <- Hr, <- Hl.
Qed.

Lemma lstrip_all_space (s : string) :
  all_space s = true -> lstrip s = EmptyString.
Proof.
  induction s as [|c s IH]; [done|]. simpl.
  intros [Hc Hs]%andb_true_iff. rewrite Hc. by apply IH.
Qed.

(** Stripping leaves nothing exactly when the text is whitespace only. *)
Lemma strip_empty (s : string) :
  strip s = EmptyString <-> all_space s = true.
Proof.
  split.
  - intros He. destruct (strip_split s) as (l & r & Hs & Hl & Hr).
    rewrite He in Hs. rewrite Hs, !all_space_app, Hl, Hr. done.
  - intros Hs. unfold strip. by rewrite lstrip_all_space.
Qed.

(** X14.  The "Add trade" button never stores a blank symbol.  For a
    typed symbol of ASCII characters, numbers as the two number inputs
    give them (not NaN) and a table that has an id left: the symbol is
    stripped of the whitespace around it, and of nothing else.  If the
    typed text is empty or whitespace only, the database is left as it is
    and an error is shown.  Otherwise exactly one row is appended, whose
    symbol is the typed text stripped and uppercased: it is not empty and
    neither starts nor ends with whitespace.  Stripping twice is stripping
    once. *)
Theorem add_trade_button_never_stores_blank (db : PortfolioDB)
    (c_symbol : string) (c_shares c_price : float) (c_date c_note : string) :
  is_ascii c_symbol = true ->
  isnan c_shares = false -> isnan c_price = false ->
  sqlite_integer (next_id db) = true ->
  let typed := strip c_symbol in
  let stored := upper typed in
  let clicked :=
    add_trade_button db c_symbol c_shares c_price c_date c_note in
  (exists l r, c_symbol = String.append l (String.append typed r) /\
               all_space l = true /\ all_space r = true) /\
  head_space typed = false /\ last_space typed = false /\
  (if all_space c_symbol
   then clicked = inr (db, StError "Enter a symbol")
   else
     typed <> EmptyString /\
     exists db',
       clicked = inr (db', StSuccess c_shares (upper c_symbol) c_price) /\
       positions_table db'
         = positions_table db
           ++ [mkPosition (next_id db) stored c_shares c_price c_date
                          (Some c_note)] /\
       stored <> EmptyString /\ head_space stored = false /\
       last_space stored = false) /\
  strip typed = typed.
Proof.
  intros _ Hsh Hpr Hid. cbv zeta.
  assert (Hh : head_space (strip c_symbol) = false)
    by apply rstrip_head, lstrip_head.
  assert (Hl : last_space (strip c_symbol) = false) by apply rstrip_last.
  split; [apply strip_split|]. split; [done|]. split; [done|]. split.
  - unfold add_trade_button.
    destruct (all_space c_symbol) eqn:Hsp.
    + apply strip_empty in Hsp. by rewrite Hsp.
    + assert (Hne : strip c_symbol <> EmptyString).
      { intros He%strip_empty. congruence. }
      split; [done|].
      destruct (String.eqb_spec (strip c_symbol) "") as [He|_]; [done|].
      unfold add_trade_call, execute_insert. rewrite Hsh, Hpr, Hid.
      cbn [orb]. eexists. split; [done|]. split; [done|].
      rewrite head_space_upper, last_space_upper. split; [|done].
      intros Hu. apply Hne. by destruct (strip c_symbol).
  - unfold strip at 1. rewrite (lstrip_fixed _ Hh). by apply rstrip_fixed.
Qed.

Lemma add_trade_button_never_stores_blank_witness :
  let clicked :=
    add_trade_button init_db "  aapl " (num 3) (num 150) "2024-01-02" "" in
  strip "  aapl " = "aapl" /\
  exists db',
    clicked = inr (db', StSuccess (num 3) "  AAPL " (num 150)) /\
    positions_table db'
      = [mkPosition 1 "AAPL" (num 3) (num 150) "2024-01-02" (Some "")].
Proof.
  cbv zeta. split; [reflexivity|].
  destruct (add_trade_button_never_stores_blank
              init_db "  aapl " (num 3) (num 150) "2024-01-02" ""
              eq_refl eq_refl eq_refl eq_refl)
    as (_ & _ & _ & Hclick & _).
  cbn [all_space is_space] in Hclick.
  destruct Hclick as (_ & db' & Hc & Htab & _).
  exists db'. split; [exact Hc|exact Htab].
Defined.

(* ===================================================================== *)
(** * The left merge keeps every position                                 *)
(* ===================================================================== *)

(** X15.  The left merge never loses a position and never reorders,
    whatever the price table holds: every position comes out, in the
    order of the positions, once per line the price table has for its
    symbol and once when it has none; the prices next to it are the
    table's prices for its symbol, in the order of the table, and a
    missing price when the table has no line for the symbol.  When no
    symbol is repeated in the price table, the result has exactly one
    line per position. *)
Theorem merge_keeps_every_position (positions : list Position)
    (prices : list (string * float)) :
  let lines p := filter (fun kv : string * float => kv.1 = symbol p) prices in
  (merge positions prices).*1
    = flat_map (fun p => replicate (Nat.max 1 (length (lines p))) p)
               positions /\
  (merge positions prices).*2
    = flat_map (fun p => match lines p with
                         | [] => [NaN]
                         | ms => ms.*2
                         end) positions /\
  (length positions <= length (merge positions prices))%nat /\
  (forall p, p ∈ positions <-> p ∈ (merge positions prices).*1) /\
  Forall (fun pq => if decide (symbol pq.1 ∈ prices.*1)
                    then (symbol pq.1, pq.2) ∈ prices
                    else pq.2 = NaN)
         (merge positions prices) /\
  (NoDup prices.*1 ->
   merge positions prices
   = (fun p => (p, default NaN (dict_get prices (symbol p)))) <$> positions).
Proof.
  cbv zeta.
  assert (Hlines : forall p,
    let ms := filter (fun kv : string * float => kv.1 = symbol p) prices in
    (ms = [] /\ symbol p ∉ prices.*1) \/
    (ms <> [] /\ symbol p ∈ prices.*1 /\
     Forall (fun kv => (symbol p, kv.2) ∈ prices) ms)).
  { intros p. cbv zeta.
    destruct (filter (fun kv : string * float => kv.1 = symbol p) prices)
      as [|kv ms] eqn:E.
    - left. split; [done|]. intros (kv & Hk & Hin)%list_elem_of_fmap.
      assert (Hf : kv ∈ filter (fun kv : string * float =>
                                  kv.1 = symbol p) prices)
        by (by apply list_elem_of_filter).
      rewrite E in Hf. by apply elem_of_nil in Hf.
    - right. split; [done|]. rewrite <- E.
      assert (Hall : Forall (fun kv : string * float =>
                               (symbol p, kv.2) ∈ prices)
                (filter (fun kv : string * float => kv.1 = symbol p) prices)).
      { apply Forall_forall. intros [k v] [Hk Hin]%list_elem_of_filter.
        simpl in *. by subst k. }
      split; [|done].
      assert (Hkv : kv ∈ filter (fun kv : string * float =>
                                   kv.1 = symbol p) prices)
        by (rewrite E; left).
      apply list_elem_of_filter in Hkv as [Hk Hin].
      rewrite <- Hk. by apply list_elem_of_fmap_2. }
  split; [|split; [|split; [|split; [|split]]]].
  - induction positions as [|p positions IH]; [done|].
    rewrite merge_cons, fmap_app, IH. cbn [flat_map]. f_equal.
    destruct (filter _ prices) as [|kv ms]; [done|].
    assert (Hgen : forall l : list (string * float),
              ((fun kv => (p, kv.2)) <$> l).*1 = replicate (length l) p).
    { intros l. induction l as [|x l IHl]; [done|].
      rewrite !fmap_cons, IHl. done. }
    rewrite Hgen. done.
  - induction positions as [|p positions IH]; [done|].
    rewrite merge_cons, fmap_app, IH. cbn [flat_map]. f_equal.
    destruct (filter _ prices) as [|kv ms]; [done|].
    rewrite <- list_fmap_compose. by apply list_fmap_ext.
  - induction positions as [|p positions IH]; [done|].
    rewrite merge_cons, length_app. cbn [length].
    destruct (filter _ prices); simpl; lia.
  - intros p. induction positions as [|q positions IH].
    + split; by intros ?%elem_of_nil.
    + rewrite merge_cons, fmap_app, elem_of_app, elem_of_cons, IH.
      assert (Hq : p ∈ (match filter (fun kv => kv.1 = symbol q) prices with
                        | [] => [(q, NaN)]
                        | ms => (fun kv => (q, kv.2)) <$> ms
                        end).*1 <-> p = q).
      { destruct (filter _ prices) as [|kv ms].
        - simpl. by rewrite list_elem_of_singleton.
        - rewrite <- list_fmap_compose. split.
          + by intros (x & -> & _)%list_elem_of_fmap.
          + intros ->. apply list_elem_of_fmap. exists kv.
            split; [done|left]. }
      rewrite Hq. tauto.
  - induction positions as [|p positions IH]; [constructor|].
    rewrite merge_cons. apply Forall_app. split; [|done].
    destruct (Hlines p) as [[-> Hn]|(Hne & Hin & Hall)].
    + repeat constructor. cbn beta. cbn [fst snd].
      case_decide as Hin; [by apply Hn in Hin|done].
    + destruct (filter _ prices) as [|kv ms]; [done|].
      apply Forall_fmap. eapply Forall_impl; [exact Hall|].
      intros kv' Hkv. unfold compose. cbn beta. cbn [fst snd].
      case_decide as Hn; [done|by apply Hn in Hin].
  - intros Hnd. induction positions as [|p positions IH]; [done|].
    rewrite merge_cons, IH, fmap_cons, filter_key_dict_get by done.
    by destruct (dict_get prices (symbol p)).
Qed.

Lemma merge_keeps_every_position_witness :
  let held := [mkPosition 1 "AAPL" (num 1) (num 2) "2024-01-02" None;
               mkPosition 2 "MSFT" (num 3) (num 4) "2024-01-03" None] in
  let quoted := [("AAPL", num 5)] in
  merge held quoted
  = (fun p => (p, default NaN (dict_get quoted (symbol p)))) <$> held.
Proof.
  cbv zeta.
  apply (merge_keeps_every_position
           [mkPosition 1 "AAPL" (num 1) (num 2) "2024-01-02" None;
            mkPosition 2 "MSFT" (num 3) (num 4) "2024-01-03" None]
           [("AAPL", num 5)]).
  repeat constructor. apply not_elem_of_nil.
Defined.

(* ===================================================================== *)
(** * A portfolio without prices                                          *)
(* ===================================================================== *)

(** Negating every cell negates the sum. *)
Lemma tally_sum_fneg (l : list float) :
  has_pinf (tally_sum (fneg <$> l)) = has_ninf (tally_sum l) /\
  has_ninf (tally_sum (fneg <$> l)) = has_pinf (tally_sum l) /\
  finite_sum (tally_sum (fneg <$> l)) = - finite_sum (tally_sum l).
Proof.
  induction l as [|x l (Hp & Hn & Hs)].
  - repeat split; try done; simpl; ring.
  - rewrite fmap_cons. cbn [tally_sum foldr].
    fold (tally_sum l) (tally_sum (fneg <$> l)).
    destruct x as [q| | |]; unfold tadd;
      cbn [fneg tally_of has_pinf has_ninf finite_sum orb];
      rewrite ?Hp, ?Hn, ?Hs; repeat split; try done; ring.
Qed.

Lemma series_sum_fneg (l : list float) :
  series_sum (fneg <$> l) = fneg (series_sum l).
Proof.
  rewrite !series_sum_resolve. unfold resolve.
  destruct (tally_sum_fneg l) as (-> & -> & ->).
  by destruct (has_pinf (tally_sum l)), (has_ninf (tally_sum l)).
Qed.

(** X19.  When no held symbol has an obtainable price (the network is
    down, say) and the share counts are finite, the valuation still goes
    through and reports a portfolio worth nothing: every row and every
    symbol has value 0 and a P&L of minus its cost basis, the total value
    is 0, the total P&L is minus the total cost, every allocation is 0
    and the pie falls back on equal slices.  [summary] likewise reports
    rows of value 0 with a P&L of minus their cost basis, a total value
    of 0 and a total P&L of minus its total cost. *)
Theorem unpriced_portfolio (yf : yfinance) (db : PortfolioDB) :
  Forall (fun p => is_finite (shares p) /\
                   dash_unobtainable (yf (upper (symbol p))))
         (positions_table db) ->
  match dashboard yf db with
  | None => positions_table db = []
  | Some d =>
      Forall (fun r => current_price r = zero /\ current_value r = zero /\
                       pnl_abs r = fneg (cost_basis r)) (dash_df d) /\
      Forall (fun a => agg_current_value a = zero /\
                       agg_pnl_abs a = fneg (agg_cost_basis a))
             (dash_agg d) /\
      dash_total_value d = zero /\
      dash_total_pnl d = fneg (dash_total_cost d) /\
      Forall (fun x => x = zero) (dash_allocation_pct d) /\
      dashboard_pie_sizes (agg_current_value <$> dash_agg d)
        = (fun _ => one) <$> dash_agg d
  end /\
  match summary yf (PortfolioAnalyzer (list_positions db)) with
  | EmptyDict => positions_table db = []
  | Summary rows total_value total_cost total_pnl =>
      Forall (fun r => current_price r = zero /\ current_value r = zero /\
                       pnl_abs r = fneg (cost_basis r)) rows /\
      total_value = zero /\ total_pnl = fneg total_cost
  end.
Proof.
  intros Hun. split.
  - unfold dashboard. rewrite read_positions_df_fmap, df_empty_fmap.
    destruct (positions_table db) as [|p0 l] eqn:Htab; [done|].
    cbn [df_empty]. rewrite <- Htab in *. clear Htab p0 l.
    rewrite dashboard_rows, <- list_fmap_compose.
    set (df := _ <$> positions_table db).
    cbn [dash_agg dash_df dash_total_value dash_total_cost dash_total_pnl
         dash_allocation_pct].
    assert (Hrows : Forall
      (fun r => current_price r = zero /\ current_value r = zero /\
                pnl_abs r = fneg (cost_basis r)) df).
    { unfold df. apply Forall_fmap. eapply Forall_impl; [exact Hun|].
      intros p [Hs Hq%dash_quote_unobtainable]. unfold compose.
      rewrite (dashboard_row_single (upper_symbol p)). simpl. rewrite Hq.
      by rewrite (fmul_zero_r _ Hs), fsub_zero_l. }
    assert (Hagg : Forall (fun a => agg_current_value a = zero /\
                                    agg_pnl_abs a = fneg (agg_cost_basis a))
                          (agg df)).
    { unfold agg. apply Forall_fmap, Forall_forall. intros k _.
      unfold compose, agg_row. simpl. split.
      - apply series_sum_zeros.
        apply Forall_fmap, Forall_forall. intros r [_ Hr]%group_elem.
        rewrite Forall_forall in Hrows.
        by destruct (Hrows r Hr) as (_ & ? & _).
      - rewrite <- series_sum_fneg, <- list_fmap_compose. f_equal.
        apply list_fmap_ext. intros _ r Hr%list_elem_of_lookup_2.
        apply group_elem in Hr as [_ Hr]. rewrite Forall_forall in Hrows.
        by destruct (Hrows r Hr) as (_ & _ & ?). }
    assert (Hcv : Forall (fun x => x = zero) (agg_current_value <$> agg df)).
    { apply Forall_fmap. eapply Forall_impl; [exact Hagg|]. by intros a [? _]. }
    assert (Htv : series_sum (agg_current_value <$> agg df) = zero)
      by (by apply series_sum_zeros).
    split; [done|]. split; [done|]. split; [done|].
    rewrite Htv, fsub_zero_l. split; [done|]. split.
    + unfold allocation_pct. rewrite Htv. cbn [is_zero zero].
      rewrite bool_decide_eq_true_2 by done.
      apply Forall_fmap. eapply Forall_impl; [exact Hagg|].
      intros a [Ha _]. unfold compose. by rewrite Ha, fdiv_one.
    + unfold dashboard_pie_sizes. rewrite py_sum_finite, Htv.
      * cbn [is_zero zero]. rewrite bool_decide_eq_true_2 by done.
        by rewrite <- list_fmap_compose.
      * eapply Forall_impl; [exact Hcv|]. by intros x ->.
  - unfold list_positions. rewrite PortfolioAnalyzer_map.
    destruct (positions_table db) as [|p0 l] eqn:Htab; [done|].
    rewrite <- Htab in *. unfold summary. rewrite df_empty_fmap, Htab.
    cbn [df_empty]. rewrite <- Htab. clear Htab p0 l.
    rewrite merge_fetch_prices.
    assert (Hm : summary_row
                   <$> ((fun p => (p, cli_quote yf (symbol p)))
                          <$> (upper_symbol <$> positions_table db))
                 = (fun p => summary_row
                               (upper_symbol p,
                                cli_quote yf (upper (symbol p))))
                     <$> positions_table db)
      by (by rewrite <- !list_fmap_compose).
    rewrite Hm. clear Hm.
    set (rows := _ <$> positions_table db).
    assert (Hrows : Forall
      (fun r => current_price r = zero /\ current_value r = zero /\
                pnl_abs r = fneg (cost_basis r)) rows).
    { unfold rows. apply Forall_fmap. eapply Forall_impl; [exact Hun|].
      intros p [Hs Hq%dash_unobtainable_cli%cli_quote_unobtainable].
      simpl. rewrite Hq. by rewrite (fmul_zero_r _ Hs), fsub_zero_l. }
    assert (Htv : series_sum (current_value <$> rows) = zero).
    { apply series_sum_zeros, Forall_fmap.
      eapply Forall_impl; [exact Hrows|]. by intros r (_ & ? & _). }
    split; [done|]. by rewrite Htv, fsub_zero_l.
Qed.

Lemma unpriced_portfolio_witness :
  let yf : yfinance := fun _ => mkTicker HistoryRaises InfoRaises in
  let db := run [AddTrade "xyz" (num 5) (num 100) "2024-01-02" "";
                 AddTrade "abc" (num 5) (num 120) "2024-02-02" ""] in
  match dashboard yf db with
  | None => positions_table db = []
  | Some d =>
      Forall (fun r => current_price r = zero /\ current_value r = zero /\
                       pnl_abs r = fneg (cost_basis r)) (dash_df d) /\
      Forall (fun a => agg_current_value a = zero /\
                       agg_pnl_abs a = fneg (agg_cost_basis a))
             (dash_agg d) /\
      dash_total_value d = zero /\
      dash_total_pnl d = fneg (dash_total_cost d) /\
      Forall (fun x => x = zero) (dash_allocation_pct d) /\
      dashboard_pie_sizes (agg_current_value <$> dash_agg d)
        = (fun _ => one) <$> dash_agg d
  end /\
  match summary yf (PortfolioAnalyzer (list_positions db)) with
  | EmptyDict => positions_table db = []
  | Summary rows total_value total_cost total_pnl =>
      Forall (fun r => current_price r = zero /\ current_value r = zero /\
                       pnl_abs r = fneg (cost_basis r)) rows /\
      total_value = zero /\ total_pnl = fneg total_cost
  end.
Proof.
  cbv zeta.
  apply (unpriced_portfolio
           (fun _ => mkTicker HistoryRaises InfoRaises)
           (run [AddTrade "xyz" (num 5) (num 100) "2024-01-02" "";
                 AddTrade "abc" (num 5) (num 120) "2024-02-02" ""])).
  repeat constructor.
Defined.

(* ===================================================================== *)
(** * Aggregation by symbol                                               *)
(* ===================================================================== *)

(** C7.  The aggregate has one line per distinct symbol of the table;
    each line holds the sums of [shares], [cost_basis], [current_value]
    and [pnl_abs] over the rows of the table that have its symbol, and
    over no other row, and its [pnl_pct] is the summed [pnl_abs] divided
    by the summed [cost_basis] (with [fillna(0)]), not a mean of the
    lots' percentages.  For two lots of one symbol, 5 shares at 100 and 5
    shares at 120, quoted at 110, the aggregate is cost basis 1100, value
    1100, P&L 0 and percentage 0, while the lots' own percentages are 1/10
    and -1/12, whose mean is not 0.  With a lot of another symbol held in
    between, that symbol gets its own line and the first line is
    unchanged. *)
Theorem C7_aggregate_by_symbol (df : list ValuationRow) :
  (NoDup (agg_symbol <$> agg df) /\
   (forall k, k ∈ agg_symbol <$> agg df <-> k ∈ row_symbol <$> df) /\
   Forall
     (fun a =>
        let lots := filter (fun r => row_symbol r = agg_symbol a) df in
        agg_shares a = series_sum (row_shares <$> lots) /\
        agg_cost_basis a = series_sum (cost_basis <$> lots) /\
        agg_current_value a = series_sum (current_value <$> lots) /\
        agg_pnl_abs a = series_sum (pnl_abs <$> lots) /\
        agg_pnl_pct a
        = fillna0 (fdiv (series_sum (pnl_abs <$> lots))
                        (series_sum (cost_basis <$> lots))))
     (agg df)) /\
  (let lot1 := mkPosition 1 "XYZ" (num 5) (num 100) "2024-01-02" None in
   let lot2 := mkPosition 2 "XYZ" (num 5) (num 120) "2024-02-02" None in
   let lots := dashboard_metrics [("XYZ", num 110)] [lot1; lot2] in
   agg_symbol <$> agg lots = ["XYZ"] /\
   agg_shares <$> agg lots = [num 10] /\
   agg_cost_basis <$> agg lots = [num 1100] /\
   agg_current_value <$> agg lots = [num 1100] /\
   agg_pnl_abs <$> agg lots = [zero] /\
   agg_pnl_pct <$> agg lots = [zero] /\
   pnl_abs <$> lots = [num 50; num (-50)] /\
   pnl_pct <$> lots = [lit 1 10; lit (-1) 12] /\
   fpositive (fdiv (series_sum (pnl_pct <$> lots)) (num 2)) = true) /\
  (let lot1 := mkPosition 1 "XYZ" (num 5) (num 100) "2024-01-02" None in
   let lot2 := mkPosition 2 "ABC" (num 2) (num 50) "2024-01-15" None in
   let lot3 := mkPosition 3 "XYZ" (num 5) (num 120) "2024-02-02" None in
   let lots := dashboard_metrics [("XYZ", num 110); ("ABC", num 60)]
                                 [lot1; lot2; lot3] in
   agg_symbol <$> agg lots = ["ABC"; "XYZ"] /\
   agg_shares <$> agg lots = [num 2; num 10] /\
   agg_cost_basis <$> agg lots = [num 100; num 1100] /\
   agg_current_value <$> agg lots = [num 120; num 1100] /\
   agg_pnl_abs <$> agg lots = [num 20; zero] /\
   agg_pnl_pct <$> agg lots = [lit 1 5; zero]).
Proof.
  split; [|split].
  - rewrite agg_symbols. split; [apply group_keys_NoDup|]. split.
    + intros k. rewrite group_keys_elem, list_elem_of_fmap.
      split; intros (r & H1 & H2); eauto.
    + unfold agg. apply Forall_fmap, Forall_forall. by intros k _.
  - cbv zeta. split; [by vm_compute|].
    repeat split; first [float_compute | by vm_compute].
  - cbv zeta. split; [by vm_compute|]. repeat split; float_compute.
Qed.

(* ===================================================================== *)
(** * binary64 rounding                                                   *)
(* ===================================================================== *)

Lemma pow2_pos (e : Z) : (0 < pow2 e)%Q.
Proof. unfold pow2. by apply Qpower_0_lt. Qed.

Lemma pow2_plus (a b : Z) : (pow2 (a + b) == pow2 a * pow2 b)%Q.
Proof. unfold pow2. by apply Qpower_plus. Qed.

Lemma pow2_le (a b : Z) : (a <= b)%Z -> (pow2 a <= pow2 b)%Q.
Proof. intros H. unfold pow2. by apply Qpower_le_compat_l. Qed.

Lemma pow2_lt (a b : Z) : (a < b)%Z -> (pow2 a < pow2 b)%Q.
Proof. intros H. unfold pow2. by apply Qpower_lt_compat_l. Qed.

Lemma pow2_inject (e : Z) : (0 <= e)%Z -> (pow2 e == inject_Z (2 ^ e))%Q.
Proof. intros H. unfold pow2. by rewrite Zpower_Qpower. Qed.

Lemma pow2_succ (e : Z) : (pow2 (e + 1) == 2 * pow2 e)%Q.
Proof. rewrite pow2_plus. unfold pow2 at 2. simpl. ring. Qed.

(** A positive integer lies between two powers of two. *)
Lemma log2_bounds (n : Z) :
  (0 < n)%Z ->
  (pow2 (Z.log2 n) <= inject_Z n)%Q /\ (inject_Z n < pow2 (Z.log2 n + 1))%Q.
Proof.
  intros Hn. destruct (Z.log2_spec n Hn) as [H1 H2].
  pose proof (Z.log2_nonneg n) as H0.
  rewrite !pow2_inject by lia. rewrite <- Zle_Qle, <- Zlt_Qlt.
  split; [done|]. by rewrite <- Z.add_1_r in H2.
Qed.

Lemma Qden_pos (x : Q) : (0 < inject_Z (Zpos (Qden x)))%Q.
Proof. rewrite <- (Zlt_Qlt 0). lia. Qed.

Lemma Qnum_den (x : Q) :
  (x * inject_Z (Zpos (Qden x)) == inject_Z (Qnum x))%Q.
Proof.
  destruct x as [n d]. unfold Qeq, Qmult, inject_Z. simpl. lia.
Qed.

Lemma Qnum_pos (x : Q) : (0 < x)%Q -> (0 < Qnum x)%Z.
Proof. destruct x as [n d]. unfold Qlt. simpl. lia. Qed.

Lemma scale_unscale (x : Q) (k : Z) : (x / pow2 k * pow2 k == x)%Q.
Proof. field. pose proof (pow2_pos k). lra. Qed.

(** The first guess of the exponent is off by at most one place. *)
Lemma first_exponent (x : Q) :
  (0 < x)%Q ->
  let k := (Z.log2 (Qnum x) - Z.log2 (Zpos (Qden x)) - 53)%Z in
  (pow2 52 < x / pow2 k)%Q /\ (x / pow2 k < pow2 54)%Q.
Proof.
  intros Hx. cbv zeta.
  set (a := Z.log2 (Qnum x)). set (b := Z.log2 (Zpos (Qden x))).
  set (k := (a - b - 53)%Z).
  destruct (log2_bounds (Qnum x) (Qnum_pos x Hx)) as [Ha1 Ha2].
  destruct (log2_bounds (Zpos (Qden x)) eq_refl) as [Hb1 Hb2].
  fold a in Ha1, Ha2. fold b in Hb1, Hb2.
  pose proof (Qnum_den x) as Hnd. pose proof (Qden_pos x) as Hd.
  pose proof (scale_unscale x k) as Hs.
  pose proof (pow2_pos k) as Hk. pose proof (pow2_pos b) as Hb.
  pose proof (pow2_pos 52) as H52. pose proof (pow2_pos 54) as H54.
  set (s := (x / pow2 k)%Q) in *.
  set (N := inject_Z (Qnum x)) in *. set (D := inject_Z (Zpos (Qden x))) in *.
  assert (E1 : (pow2 (a + 1) == pow2 54 * pow2 k * pow2 b)%Q).
  { rewrite <- !pow2_plus. unfold k. f_equiv. lia. }
  assert (E2 : (pow2 a == pow2 52 * pow2 k * pow2 (b + 1))%Q).
  { rewrite <- !pow2_plus. unfold k. f_equiv. lia. }
  assert (HPD : (0 < pow2 k * D)%Q) by (apply Qmult_lt_0_compat; lra).
  assert (HN : (s * (pow2 k * D) == N)%Q).
  { rewrite <- Hnd, <- Hs. ring. }
  split.
  - apply (Qmult_lt_r _ _ (pow2 k * D)); [done|]. rewrite HN.
    apply Qlt_le_trans with (pow2 a); [|done]. rewrite E2.
    rewrite <- !Qmult_assoc. apply Qmult_lt_l; [done|].
    apply Qmult_lt_l; done.
  - apply (Qmult_lt_r _ _ (pow2 k * D)); [done|]. rewrite HN.
    apply Qlt_le_trans with (pow2 (a + 1)); [done|]. rewrite E1.
    rewrite <- !Qmult_assoc. apply Qmult_le_l; [done|].
    apply Qmult_le_l; done.
Qed.

(** The exponent of the last place is right: [x / 2^k] has at most 53
    bits, and exactly 53 unless [x] is subnormal. *)
Lemma ulp_exponent_spec (x : Q) :
  (0 < x)%Q ->
  let k := ulp_exponent x in
  (-1074 <= k)%Z /\ (0 < x / pow2 k)%Q /\ (x / pow2 k < pow2 53)%Q /\
  ((-1074 < k)%Z -> (pow2 52 <= x / pow2 k)%Q).
Proof.
  intros Hx. unfold ulp_exponent.
  set (k0 := (Z.log2 (Qnum x) - Z.log2 (Zpos (Qden x)) - 53)%Z).
  destruct (first_exponent x Hx) as [Hlo Hhi]. fold k0 in Hlo, Hhi.
  set (k1 := if Qle_bool (pow2 53) (x / pow2 k0) then (k0 + 1)%Z else k0).
  assert (H1 : (pow2 52 <= x / pow2 k1)%Q /\ (x / pow2 k1 < pow2 53)%Q).
  { unfold k1. destruct (Qle_bool (pow2 53) (x / pow2 k0)) eqn:E.
    - apply Qle_bool_iff in E.
      assert (Hhalf : (x / pow2 (k0 + 1) == (x / pow2 k0) * (1 # 2))%Q).
      { rewrite pow2_succ. field. pose proof (pow2_pos k0). lra. }
      rewrite Hhalf.
      pose proof (pow2_succ 52) as E53. pose proof (pow2_succ 53) as E54.
      change (52 + 1)%Z with 53%Z in E53. change (53 + 1)%Z with 54%Z in E54.
      lra.
    - assert (Hlt : ~ (pow2 53 <= x / pow2 k0)%Q).
      { rewrite <- Qle_bool_iff. congruence. }
      apply Qnot_le_lt in Hlt. split; [by apply Qlt_le_weak|done]. }
  clearbody k1. clear Hlo Hhi k0. destruct H1 as [Hlo Hhi].
  pose proof (pow2_pos 52) as H52.
  assert (Hpos : forall k, (0 < x / pow2 k)%Q).
  { intros k. apply Qlt_shift_div_l; [apply pow2_pos|lra]. }
  split; [lia|]. split; [apply Hpos|].
  destruct (Z.max_spec k1 (-1074)) as [[Hlt ->]|[Hle ->]].
  - split; [|lia].
    pose proof (scale_unscale x k1) as E1.
    pose proof (scale_unscale x (-1074)) as E2.
    pose proof (pow2_lt k1 (-1074) Hlt) as Hp.
    pose proof (pow2_pos k1) as Hk1. specialize (Hpos (-1074)%Z).
    apply Qlt_trans with (x / pow2 k1)%Q; [|done].
    apply (Qmult_lt_r _ _ (pow2 (-1074))); [apply pow2_pos|].
    rewrite E2, <- E1 at 1.
    apply Qmult_lt_l; [lra|done].
  - split; [done|]. by intros _.
Qed.

Lemma round_half_even_spec (s : Q) :
  (0 <= s)%Q ->
  (0 <= round_half_even s)%Z /\
  (inject_Z (round_half_even s) - s <= 1 # 2)%Q /\
  (s - inject_Z (round_half_even s) <= 1 # 2)%Q.
Proof.
  intros Hs. unfold round_half_even.
  pose proof (Qfloor_le s) as Hf1. pose proof (Qlt_floor s) as Hf2.
  assert (Hf0 : (0 <= Qfloor s)%Z).
  { change 0%Z with (Qfloor 0). by apply Qfloor_resp_le. }
  rewrite inject_Z_plus in Hf2.
  change (inject_Z 1) with 1%Q in Hf2.
  destruct (s - inject_Z (Qfloor s) ?= 1 # 2)%Q eqn:E.
  - apply Qeq_alt in E.
    destruct (Z.even (Qfloor s)); rewrite ?inject_Z_plus;
      change (inject_Z 1) with 1%Q; split; try lia; lra.
  - apply Qlt_alt in E. split; [lia|]. lra.
  - apply Qgt_alt in E. rewrite inject_Z_plus.
    change (inject_Z 1) with 1%Q. split; [lia|]. lra.
Qed.

Lemma round_half_even_Z (z : Z) : round_half_even (inject_Z z) = z.
Proof.
  unfold round_half_even. rewrite Qfloor_Z.
  assert (E : (inject_Z z - inject_Z z ?= 1 # 2)%Q = Lt).
  { apply -> Qlt_alt. generalize (inject_Z z). intros q. lra. }
  by rewrite E.
Qed.

Lemma round_half_even_comp (s t : Q) :
  (s == t)%Q -> round_half_even s = round_half_even t.
Proof.
  intros E. unfold round_half_even.
  assert (Hf : Qfloor s = Qfloor t) by (by rewrite E).
  rewrite Hf.
  assert (Hc : (s - inject_Z (Qfloor t) ?= 1 # 2)%Q
               = (t - inject_Z (Qfloor t) ?= 1 # 2)%Q) by (by rewrite E).
  by rewrite Hc.
Qed.

Lemma Qc_eq_Q (a b : Qc) : a = b <-> (a == b)%Q.
Proof. split; [by intros ->|apply Qc_is_canon]. Qed.
Lemma this_plus (a b : Qc) : (this (a + b) == this a + this b)%Q.
Proof. apply Qred_correct. Qed.
Lemma this_mult (a b : Qc) : (this (a * b) == this a * this b)%Q.
Proof. apply Qred_correct. Qed.
Lemma this_opp (a : Qc) : (this (- a) == - this a)%Q.
Proof. apply Qred_correct. Qed.
Lemma this_minus (a b : Qc) : (this (a - b) == this a - this b)%Q.
Proof. unfold Qcminus. rewrite this_plus, this_opp. reflexivity. Qed.
Lemma this_Q2Qc (q : Q) : (this (Q2Qc q) == q)%Q.
Proof. apply Qred_correct. Qed.

(** Turning a statement on [Qc] into one on [Q]. *)
Ltac to_Q_hyps :=
  repeat match goal with
         | H : @eq Qc _ _ |- _ => apply Qc_eq_Q in H
         | H : context [this (_ + _)%Qc] |- _ => rewrite this_plus in H
         | H : context [this (_ - _)%Qc] |- _ => rewrite this_minus in H
         | H : context [this (_ * _)%Qc] |- _ => rewrite this_mult in H
         | H : context [this (- _)%Qc] |- _ => rewrite this_opp in H
         | H : context [this (Q2Qc _)] |- _ => rewrite this_Q2Qc in H
         end.

Ltac to_Q :=
  unfold Qcle, Qclt in *; try apply Qc_eq_Q;
  repeat first [ rewrite this_plus | rewrite this_minus | rewrite this_mult
               | rewrite this_opp | rewrite this_Q2Qc ];
  to_Q_hyps.

(** What rounding a positive rational does: the result is a multiple of
    the unit in the last place, within half a unit of the argument. *)
Lemma round_pos_error (x : Q) :
  (0 < x)%Q ->
  let k := ulp_exponent x in
  let y := (inject_Z (round_half_even (x / pow2 k)) * pow2 k)%Q in
  let e := (pow2 k * (1 # 2))%Q in
  (-1074 <= k)%Z /\ (0 <= round_half_even (x / pow2 k))%Z /\
  (0 <= y)%Q /\ (y - x <= e)%Q /\ (x - y <= e)%Q /\
  ((-1074 < k)%Z -> (e <= x * pow2 (-53))%Q) /\
  (k = (-1074)%Z -> (e == pow2 (-1075))%Q).
Proof.
  intros Hx. cbv zeta.
  destruct (ulp_exponent_spec x Hx) as (Hk & Hs0 & Hs53 & Hs52).
  set (k := ulp_exponent x) in *. set (s := (x / pow2 k)%Q) in *.
  destruct (round_half_even_spec s) as (Hm0 & Hm1 & Hm2); [lra|].
  set (m := round_half_even s) in *.
  pose proof (scale_unscale x k) as Hsk. fold s in Hsk.
  pose proof (pow2_pos k) as Hpk.
  assert (Hm0' : (0 <= inject_Z m)%Q) by (by rewrite <- (Zle_Qle 0)).
  split; [done|]. split; [done|]. split; [by apply Qmult_le_0_compat; lra|].
  assert (H1 : (0 <= pow2 k * ((1 # 2) - (inject_Z m - s)))%Q)
    by (apply Qmult_le_0_compat; lra).
  assert (H2 : (0 <= pow2 k * ((1 # 2) - (s - inject_Z m)))%Q)
    by (apply Qmult_le_0_compat; lra).
  split; [lra|]. split; [lra|]. split.
  - intros Hn. specialize (Hs52 Hn).
    assert (E : (pow2 52 * pow2 (-53) == 1 # 2)%Q) by reflexivity.
    assert (H3 : (0 <= pow2 k * pow2 (-53) * (s - pow2 52))%Q).
    { apply Qmult_le_0_compat; [|lra].
      apply Qmult_le_0_compat; [lra|]. apply Qlt_le_weak, pow2_pos. }
    rewrite <- Hsk, <- E. lra.
  - intros ->. reflexivity.
Qed.

Lemma round64_zero : round64 0 = Finite 0.
Proof. reflexivity. Qed.

Lemma round64_pos (x : Qc) : 0 < x -> round64 x = round_pos x.
Proof.
  intros Hx. unfold round64.
  assert (E : (x ?= 0)%Q = Gt) by (by apply -> Qgt_alt).
  by rewrite E.
Qed.

Lemma pow2_1000 : (1 <= pow2 1000)%Q /\ (4 * pow2 1000 <= pow2 1024)%Q.
Proof.
  split.
  - apply Qle_trans with (pow2 0); [by vm_compute|]. by apply pow2_le.
  - apply Qle_trans with (pow2 1002); [|by apply pow2_le].
    change 1002%Z with (2 + 1000)%Z. rewrite pow2_plus.
    apply Qmult_le_r; [apply pow2_pos|by vm_compute].
Qed.

(** The specification of [round64] on a non-negative number [x]: it
    overflows only for an [x] of [2^1000] or more; otherwise the result is not negative,
    is a multiple of [2^-1074], and is within the relative error
    [2^-53] of [x], up to an absolute error of [2^-1075] that arises
    only when [x] is not itself a multiple of [2^-1074]. *)
Lemma round64_spec (x : Qc) :
  0 <= x ->
  match round64 x with
  | Finite y =>
      0 <= y /\ on_grid y /\
      (1 - unit_roundoff) * x - underflow_unit <= y /\
      y <= (1 + unit_roundoff) * x + underflow_unit /\
      (on_grid x ->
       (1 - unit_roundoff) * x <= y /\ y <= (1 + unit_roundoff) * x)
  | PInf => Q2Qc (pow2 1000) <= x
  | _ => False
  end.
Proof.
  intros Hx.
  assert (Hu : (this unit_roundoff == pow2 (-53))%Q) by apply this_Q2Qc.
  assert (He : (this underflow_unit == pow2 (-1075))%Q) by apply this_Q2Qc.
  pose proof (pow2_pos (-53)) as Hu0. pose proof (pow2_pos (-1075)) as He0.
  assert (Hu1 : (pow2 (-53) <= 1)%Q) by (by vm_compute).
  destruct (Qcle_lt_or_eq _ _ Hx) as [Hpos|<-].
  2: { rewrite round64_zero. split; [done|]. split; [by exists 0%Z|].
       assert (H0 : forall a b : Qc,
                 (this a == pow2 (-53))%Q -> (this b == pow2 (-1075))%Q ->
                 (1 - a) * 0 - b <= 0 /\ 0 <= (1 + a) * 0 + b /\
                 (1 - a) * 0 <= 0 /\ 0 <= (1 + a) * 0).
       { intros a b Ea Eb. split; [|split; [|split]]; to_Q;
           rewrite ?Ea, ?Eb; change (this 0) with 0%Q; lra. }
       destruct (H0 _ _ Hu He) as (? & ? & ? & ?). done. }
  rewrite (round64_pos x Hpos). unfold round_pos.
  destruct (round_pos_error x Hpos) as (Hk & Hm & Hy & E1 & E2 & En & Es).
  set (k := ulp_exponent x) in *.
  set (m := round_half_even (x / pow2 k)) in *.
  set (y := (inject_Z m * pow2 k)%Q) in *.
  set (e := (pow2 k * (1 # 2))%Q) in *.
  assert (Hxq : (0 < x)%Q) by done.
  assert (He' : (e <= x * pow2 (-53) + pow2 (-1075))%Q /\ (0 <= e)%Q).
  { split; [|unfold e; pose proof (pow2_pos k); lra].
    assert (Hxu : (0 <= x * pow2 (-53))%Q) by (apply Qmult_le_0_compat; lra).
    destruct (Z.eq_dec k (-1074)%Z) as [Hk'|Hk'].
    - rewrite (Es Hk'). lra.
    - assert (Hlt : (-1074 < k)%Z) by lia. specialize (En Hlt). lra. }
  destruct He' as [He1 He2].
  destruct (Qle_bool (pow2 1024) y) eqn:Hov.
  - apply Qle_bool_iff in Hov. to_Q.
    destruct pow2_1000 as [H1000 H1024].
    assert (Hxu : (x * pow2 (-53) <= x)%Q).
    { rewrite <- (Qmult_1_r x) at 2. apply Qmult_le_l; lra. }
    assert (Hsmall : (pow2 (-1075) <= 1)%Q) by (by vm_compute).
    lra.
  - split; [to_Q; lra|]. split.
    { exists (m * 2 ^ (k + 1074))%Z. rewrite this_Q2Qc. unfold y.
      rewrite inject_Z_mult, <- pow2_inject by lia.
      rewrite <- Qmult_assoc, <- pow2_plus. do 2 f_equiv. lia. }
    split; [to_Q; rewrite Hu, He; lra|].
    split; [to_Q; rewrite Hu, He; lra|].
    intros (z & Hz).
    assert (Hgrid : (y - x <= x * pow2 (-53))%Q /\ (x - y <= x * pow2 (-53))%Q).
    { assert (Hxu : (0 <= x * pow2 (-53))%Q)
        by (apply Qmult_le_0_compat; lra).
      destruct (Z.eq_dec k (-1074)%Z) as [Hk'|Hk'].
      - assert (Hs : (x / pow2 k == inject_Z z)%Q).
        { rewrite Hk', Hz. field. pose proof (pow2_pos (-1074)). lra. }
        assert (Hmz : m = z).
        { unfold m. rewrite (round_half_even_comp _ _ Hs).
          apply round_half_even_Z. }
        assert (Hyx : (y == x)%Q) by (unfold y; by rewrite Hmz, Hk', Hz).
        rewrite Hyx. lra.
      - assert (Hlt : (-1074 < k)%Z) by lia. specialize (En Hlt). lra. }
    split; to_Q; rewrite Hu; lra.
Qed.

Lemma this_whole (z : Z) : this (whole z) = inject_Z z.
Proof.
  unfold whole, Q2Qc, this, inject_Z. apply Qred_identity.
  apply Z.gcd_1_r.
Qed.

Lemma whole_plus (a b : Z) : whole a + whole b = whole (a + b).
Proof.
  apply Qc_is_canon. rewrite this_plus, !this_whole.
  by rewrite inject_Z_plus.
Qed.




(* ===================================================================== *)
(** * Sums of whole numbers are exact                                     *)
(* ===================================================================== *)



Lemma whole_0 : whole 0 = 0.
Proof. by apply Qc_is_canon. Qed.













(* ===================================================================== *)
(** * Rounding errors of a sum and of the allocations                     *)
(* ===================================================================== *)

Lemma this_inv (a : Qc) : (this (/ a) == / this a)%Q.
Proof. apply Qred_correct. Qed.

Lemma this_div (a b : Qc) : (this (a / b) == this a / this b)%Q.
Proof. unfold Qcdiv. rewrite this_mult, this_inv. reflexivity. Qed.

Lemma unit_roundoff_bounds :
  0 < unit_roundoff /\ unit_roundoff <= Q2Qc (1 # 2).
Proof. split; by vm_compute. Qed.

Lemma underflow_unit_pos : 0 < underflow_unit.
Proof. by vm_compute. Qed.

Lemma whole_succ (n : nat) :
  whole (Z.of_nat (S n)) = whole (Z.of_nat n) + 1.
Proof.
  rewrite Nat2Z.inj_succ, <- Z.add_1_r, <- whole_plus. reflexivity.
Qed.

Lemma whole_nonneg (n : nat) : 0 <= whole (Z.of_nat n).
Proof.
  unfold Qcle. rewrite this_whole. change (this 0) with (inject_Z 0).
  rewrite <- Zle_Qle. lia.
Qed.

Lemma on_grid_0 : on_grid 0.
Proof. exists 0%Z. reflexivity. Qed.

Lemma on_grid_plus (a b : Qc) : on_grid a -> on_grid b -> on_grid (a + b).
Proof.
  intros [za Ha] [zb Hb]. exists (za + zb)%Z.
  rewrite this_plus, Ha, Hb, inject_Z_plus. ring.
Qed.

(** One step of a running sum of non-negative numbers: the relative
    error grows by at most one unit roundoff. *)
Lemma step_lower (u y a v s c : Qc) :
  0 <= u -> 0 <= v -> 0 <= a -> 0 <= s -> 0 <= c -> 0 <= 1 - (c + 1) * u ->
  (1 - u) * (a + v) <= y -> (1 - c * u) * s <= a ->
  (1 - (c + 1) * u) * (s + v) <= y.
Proof.
  intros. to_Q.
  set (qu := this u) in *. set (qy := this y) in *. set (qa := this a) in *.
  set (qv := this v) in *. set (qs := this s) in *. set (qc := this c) in *.
  clearbody qu qy qa qv qs qc. clear u y a v s c.
  assert (H1' : (0 <= qc * qu)%Q) by (apply Qmult_le_0_compat; lra).
  assert (H2' : (0 <= (1 - qu) * (qa - (1 - qc * qu) * qs))%Q)
    by (apply Qmult_le_0_compat; lra).
  assert (H3' : (0 <= qc * qu * qu * qs)%Q)
    by (repeat apply Qmult_le_0_compat; lra).
  assert (H4' : (0 <= qc * qu * qv)%Q)
    by (repeat apply Qmult_le_0_compat; lra).
  lra.
Qed.

Lemma step_upper (u y a v s c : Qc) :
  0 <= u -> 0 <= v -> 0 <= a -> 0 <= s -> 0 <= c -> 0 <= 1 - (c + 1) * u ->
  y <= (1 + u) * (a + v) -> (1 - c * u) * a <= s ->
  (1 - (c + 1) * u) * y <= s + v.
Proof.
  intros. to_Q.
  set (qu := this u) in *. set (qy := this y) in *. set (qa := this a) in *.
  set (qv := this v) in *. set (qs := this s) in *. set (qc := this c) in *.
  clearbody qu qy qa qv qs qc. clear u y a v s c.
  assert (H1' : (0 <= (1 - (qc + 1) * qu) * ((1 + qu) * (qa + qv) - qy))%Q)
    by (apply Qmult_le_0_compat; lra).
  assert (H2' : (0 <= (qc + 1) * qu * qu * (qa + qv))%Q)
    by (repeat apply Qmult_le_0_compat; lra).
  assert (H3' : (0 <= qc * qu * qv)%Q)
    by (repeat apply Qmult_le_0_compat; lra).
  lra.
Qed.

Lemma fold_fadd64_PInf (qs : list Qc) :
  fold_left fadd64 (Finite <$> qs) PInf = PInf.
Proof. induction qs as [|v qs IH]; [done|]. exact IH. Qed.

Lemma exact_sum_cons (v : Qc) (l : list float) :
  exact_sum (Finite v :: l) = v + exact_sum l.
Proof. reflexivity. Qed.

(** The running float64 sum of non-negative binary64 numbers, when it does
    not overflow, is within the relative error [n * 2^-53] of the exact
    sum. *)
Lemma fold_fadd64_bounds (qs : list Qc) (acc s c : Qc) :
  Forall (fun v => 0 <= v /\ on_grid v) qs ->
  0 <= acc -> on_grid acc -> 0 <= s -> 0 <= c ->
  (c + whole (Z.of_nat (length qs))) * unit_roundoff <= 1 ->
  (1 - c * unit_roundoff) * s <= acc ->
  (1 - c * unit_roundoff) * acc <= s ->
  match fold_left fadd64 (Finite <$> qs) (Finite acc) with
  | Finite t =>
      0 <= t /\ on_grid t /\
      (1 - (c + whole (Z.of_nat (length qs))) * unit_roundoff)
      * (s + exact_sum (Finite <$> qs)) <= t /\
      (1 - (c + whole (Z.of_nat (length qs))) * unit_roundoff) * t
      <= s + exact_sum (Finite <$> qs)
  | PInf => True
  | _ => False
  end.
Proof.
  destruct unit_roundoff_bounds as [Hu0 Hu1].
  revert acc s c. induction qs as [|v qs IH]; intros acc s c Hqs Ha Hg Hs Hc.
  - cbn [length fmap list_fmap fold_left]. intros _ H1 H2.
    assert (E : c + whole (Z.of_nat 0) = c).
    { change (Z.of_nat 0) with 0%Z. rewrite whole_0. ring. }
    rewrite E. change (exact_sum []) with 0.
    replace (s + 0) with s by ring. done.
  - apply Forall_cons in Hqs as [[Hv Hgv] Hqs].
    cbn [length]. rewrite whole_succ. intros Hn H1 H2.
    rewrite fmap_cons. cbn [fold_left fadd64].
    pose proof (whole_nonneg (length qs)) as Hlen.
    assert (Hav : 0 <= acc + v).
    { to_Q. lra. }
    assert (Hc1 : 0 <= 1 - (c + 1) * unit_roundoff).
    { to_Q. revert Hn Hlen Hc Hu0.
      generalize (this (whole (Z.of_nat (length qs)))) (this c)
        (this unit_roundoff). intros n qc u. intros.
      assert (0 <= n * u)%Q by (apply Qmult_le_0_compat; lra). lra. }
    pose proof (round64_spec (acc + v) Hav) as Hr.
    destruct (round64 (acc + v)) as [y| | |]; try done.
    2: { by rewrite fold_fadd64_PInf. }
    destruct Hr as (Hy & Hgy & _ & _ & Hrel).
    destruct (Hrel (on_grid_plus _ _ Hg Hgv)) as [Hlo Hhi].
    assert (Hsv : 0 <= s + v) by (to_Q; lra).
    assert (Hu : 0 <= unit_roundoff) by (by apply Qclt_le_weak).
    specialize (IH y (s + v) (c + 1) Hqs Hy Hgy Hsv).
    assert (Hc' : 0 <= c + 1) by (to_Q; lra).
    assert (E : c + 1 + whole (Z.of_nat (length qs))
                = c + (whole (Z.of_nat (length qs)) + 1)) by ring.
    rewrite E in IH. rewrite exact_sum_cons.
    replace (s + (v + exact_sum (Finite <$> qs)))
      with (s + v + exact_sum (Finite <$> qs)) by ring.
    apply IH; try done.
    + by apply (step_lower _ _ acc).
    + by apply (step_upper _ _ acc).
Qed.

Lemma filter_Finite (qs : list Qc) :
  filter (fun x => isnan x = false) (Finite <$> qs) = Finite <$> qs.
Proof.
  induction qs as [|v qs IH]; [done|].
  rewrite fmap_cons, filter_cons_True by done. by rewrite IH.
Qed.

Lemma series_sum64_bounds (qs : list Qc) :
  Forall (fun v => 0 <= v /\ on_grid v) qs ->
  whole (Z.of_nat (length qs)) * unit_roundoff <= 1 ->
  match series_sum64 (Finite <$> qs) with
  | Finite t =>
      0 <= t /\ on_grid t /\
      (1 - whole (Z.of_nat (length qs)) * unit_roundoff)
      * exact_sum (Finite <$> qs) <= t /\
      (1 - whole (Z.of_nat (length qs)) * unit_roundoff) * t
      <= exact_sum (Finite <$> qs)
  | PInf => True
  | _ => False
  end.
Proof.
  intros Hqs Hn. unfold series_sum64. rewrite filter_Finite.
  pose proof (fold_fadd64_bounds qs 0 0 0 Hqs) as H.
  replace (0 + whole (Z.of_nat (length qs)))
    with (whole (Z.of_nat (length qs))) in H by ring.
  replace (0 + exact_sum (Finite <$> qs))
    with (exact_sum (Finite <$> qs)) in H by ring.
  apply H; try done; try apply on_grid_0;
    replace ((1 - 0 * unit_roundoff) * 0) with 0 by ring; done.
Qed.

Lemma binary64_on_grid (q : Qc) :
  0 <= q -> binary64 (Finite q) = true -> on_grid q.
Proof.
  intros Hq Hb. apply float_eqb_eq in Hb.
  pose proof (round64_spec q Hq) as H. rewrite Hb in H. tauto.
Qed.

Lemma nonneg_binary64 (l : list float) :
  forallb fnonneg l = true -> forallb binary64 l = true ->
  exists qs, l = Finite <$> qs /\
             Forall (fun v => 0 <= v /\ on_grid v) qs.
Proof.
  induction l as [|x l IH]; [by exists []|].
  cbn [forallb]. intros [Hx Hl]%andb_true_iff [Hbx Hbl]%andb_true_iff.
  destruct (IH Hl Hbl) as (qs & -> & Hqs).
  apply fnonneg_spec in Hx as (q & -> & Hq).
  exists (q :: qs). split; [done|]. constructor; [|done].
  split; [done|]. by apply binary64_on_grid.
Qed.

(** A running sum of non-negative binary64 numbers that is 0 has added
    zeros only. *)
Lemma fold_fadd64_zero (qs : list Qc) (acc : Qc) :
  Forall (fun v => 0 <= v /\ on_grid v) qs -> 0 <= acc -> on_grid acc ->
  fold_left fadd64 (Finite <$> qs) (Finite acc) = zero ->
  acc = 0 /\ Forall (fun v => v = 0) qs.
Proof.
  destruct unit_roundoff_bounds as [Hu0 Hu1].
  revert acc. induction qs as [|v qs IH]; intros acc Hqs Ha Hg.
  - cbn. by intros [= ->].
  - apply Forall_cons in Hqs as [[Hv Hgv] Hqs].
    rewrite fmap_cons. cbn [fold_left fadd64].
    assert (Hav : 0 <= acc + v) by (to_Q; lra).
    pose proof (round64_spec (acc + v) Hav) as Hr.
    destruct (round64 (acc + v)) as [y| | |]; try done.
    2: { by rewrite fold_fadd64_PInf. }
    destruct Hr as (Hy & Hgy & _ & _ & Hrel).
    destruct (Hrel (on_grid_plus _ _ Hg Hgv)) as [Hlo _].
    intros Hz. destruct (IH y Hqs Hy Hgy Hz) as [-> Hzs].
    assert (E : acc = 0 /\ v = 0).
    { assert (Hsum : acc + v <= 0).
      { to_Q. revert Hlo Hav Hu0 Hu1.
        generalize (this acc + this v)%Q (this unit_roundoff).
        intros x u. intros.
        assert (0 <= ((1 # 2) - u) * x)%Q
          by (apply Qmult_le_0_compat; lra).
        lra. }
      split; to_Q; lra. }
    destruct E as [-> ->]. split; [done|]. by constructor.
Qed.

(** The allocations of non-negative numbers that are at most twice the
    divisor are finite and not negative, and their exact sum is within
    the rounding error of the divisions of the exact quotient. *)
Lemma alloc_bounds (qs : list Qc) (t : Qc) :
  0 < t -> Forall (fun v => 0 <= v /\ v <= 2 * t) qs ->
  exists als,
    (fun x => fdiv64 x (Finite t)) <$> (Finite <$> qs) = Finite <$> als /\
    Forall (fun a => 0 <= a /\ on_grid a) als /\
    (1 - unit_roundoff) * (exact_sum (Finite <$> qs) / t)
    - whole (Z.of_nat (length qs)) * underflow_unit
    <= exact_sum (Finite <$> als) /\
    exact_sum (Finite <$> als)
    <= (1 + unit_roundoff) * (exact_sum (Finite <$> qs) / t)
       + whole (Z.of_nat (length qs)) * underflow_unit.
Proof.
  intros Ht. induction 1 as [|v qs [Hv Hvt] Hqs (als & Hals & Hpos & Hlo & Hhi)].
  - exists []. split; [done|]. split; [constructor|].
    cbn [length fmap list_fmap]. change (Z.of_nat 0) with 0%Z.
    rewrite whole_0. change (exact_sum []) with 0.
    split; to_Q; rewrite this_div; change (this 0) with 0%Q;
      unfold Qdiv; lra.
  - assert (Hne : t <> 0) by (intros ->; by apply (Qclt_not_eq _ _ Ht)).
    assert (Hx : 0 <= v / t /\ v / t <= 2).
    { split; to_Q; rewrite this_div.
      - apply Qle_shift_div_l; [done|]. lra.
      - apply Qle_shift_div_r; [done|]. done. }
    destruct Hx as [Hx0 Hx2].
    pose proof (round64_spec (v / t) Hx0) as Hr.
    destruct (round64 (v / t)) as [a| | |] eqn:Ha; try done.
    2: { exfalso. destruct pow2_1000 as [H1 H2]. to_Q.
         pose proof (pow2_lt 1 1000 eq_refl) as H3.
         assert (E1 : (pow2 1 == 2)%Q) by reflexivity. lra. }
    destruct Hr as (Ha0 & Hag & Hal & Hah & _).
    exists (a :: als). split.
    { rewrite !fmap_cons. cbn [fdiv64]. rewrite decide_False by done.
      rewrite Ha. f_equal. exact Hals. }
    split; [by constructor|].
    cbn [length]. rewrite whole_succ, !fmap_cons, !exact_sum_cons.
    assert (E : (v + exact_sum (Finite <$> qs)) / t
                = v / t + exact_sum (Finite <$> qs) / t).
    { unfold Qcdiv. ring. }
    rewrite E.
    split; to_Q; lra.
Qed.

(** The quotient of the exact sum by the rounded sum. *)
Lemma quotient_bounds (d s t : Qc) :
  0 < t -> 0 <= s -> d * s <= t -> d * t <= s ->
  0 <= s / t /\ d <= s / t /\ d * (s / t) <= 1.
Proof.
  intros Ht Hs H1 H2. to_Q.
  assert (E : (this (s / t) * this t == this s)%Q).
  { rewrite this_div. field. lra. }
  revert E. generalize (this (s / t)). intros r E.
  revert Ht Hs H1 H2 E. generalize (this d) (this s) (this t).
  clear. intros d s t Ht Hs H1 H2 E.
  split; [|split].
  - apply (Qmult_le_r _ _ t); [done|]. lra.
  - apply (Qmult_le_r _ _ t); [done|]. lra.
  - apply (Qmult_le_r _ _ t); [done|]. rewrite <- Qmult_assoc, E. lra.
Qed.

(** From the two rounding errors to the tolerance. *)
Lemma allocation_tolerance (n u e r sigma : Qc) :
  0 <= u -> u <= 1 -> 0 <= e -> 0 <= n -> 2 * n * u <= 1 ->
  0 <= r -> 1 - n * u <= r -> (1 - n * u) * r <= 1 ->
  (1 - u) * r - n * e <= sigma -> sigma <= (1 + u) * r + n * e ->
  1 - (2 * (n + 1) * u + n * e) <= sigma /\
  sigma <= 1 + (2 * (n + 1) * u + n * e).
Proof.
  intros Hu Hu1 He Hn Hnu Hr Hlo Hhi Hs1 Hs2. to_Q.
  revert Hu Hu1 He Hn Hnu Hr Hlo Hhi Hs1 Hs2.
  generalize (this n) (this u) (this e) (this r) (this sigma).
  clear. intros n u e r sigma. intros.
  assert (Hnu0 : (0 <= n * u)%Q) by (apply Qmult_le_0_compat; lra).
  assert (Hnuu : (0 <= n * u * u)%Q) by (apply Qmult_le_0_compat; lra).
  split.
  - assert (K : (0 <= (1 - u) * (r - (1 - n * u)))%Q)
      by (apply Qmult_le_0_compat; lra).
    lra.
  - assert (K1 : (0 <= (1 + u) * (1 - (1 - n * u) * r))%Q)
      by (apply Qmult_le_0_compat; lra).
    assert (K2 : (0 <= (n + 1) * u * (1 - 2 * n * u))%Q).
    { apply Qmult_le_0_compat; [|lra]. apply Qmult_le_0_compat; lra. }
    assert (K3 : ((1 + u) * r * (1 - n * u)
                  <= (1 + 2 * (n + 1) * u) * (1 - n * u))%Q) by lra.
    apply Qmult_le_r in K3; lra.
Qed.

Lemma fdiv64_one (x : float) : binary64 x = true -> fdiv64 x one = x.
Proof.
  destruct x as [q| | |]; try done. unfold one. cbn [fdiv64 binary64].
  intros Hq%float_eqb_eq. rewrite decide_False by done.
  replace (q / 1) with q; [done|]. symmetry. apply (right_id 1 Qcdiv).
Qed.

Lemma fpositive_Finite (t : Qc) : fpositive (Finite t) = true -> 0 < t.
Proof.
  simpl. unfold sign. destruct (t ?= 0) eqn:E; try done. intros _.
  by apply Qcgt_alt.
Qed.

Lemma symbols_roundoff (n : nat) :
  (Z.of_nat n <= 2 ^ 52)%Z -> 2 * whole (Z.of_nat n) * unit_roundoff <= 1.
Proof.
  intros Hn. unfold unit_roundoff. to_Q. rewrite this_whole.
  assert (Hn' : (inject_Z (Z.of_nat n) <= inject_Z (2 ^ 52))%Q)
    by (by rewrite <- Zle_Qle).
  assert (E : (2 * inject_Z (2 ^ 52) * pow2 (-53) == 1)%Q) by reflexivity.
  pose proof (pow2_pos (-53)) as Hp.
  revert Hn' E Hp. generalize (inject_Z (Z.of_nat n)) (inject_Z (2 ^ 52))
    (pow2 (-53)). intros a b p. intros.
  assert (0 <= (b - a) * p)%Q by (apply Qmult_le_0_compat; lra).
  lra.
Qed.

Lemma exact_sum_nonneg (qs : list Qc) :
  Forall (fun v => 0 <= v /\ on_grid v) qs -> 0 <= exact_sum (Finite <$> qs).
Proof.
  induction 1 as [|v qs [Hv _] _ IH]; [done|].
  rewrite fmap_cons, exact_sum_cons. to_Q. lra.
Qed.

(** A running float64 sum of non-negative binary64 numbers whose exact sum
    is far from the largest binary64 number does not overflow. *)
Lemma fold_fadd64_finite (qs : list Qc) (acc s c : Qc) :
  Forall (fun v => 0 <= v /\ on_grid v) qs ->
  0 <= acc -> on_grid acc -> 0 <= s -> 0 <= c ->
  (c + whole (Z.of_nat (length qs))) * unit_roundoff <= Q2Qc (1 # 2) ->
  s + exact_sum (Finite <$> qs) <= Q2Qc (pow2 998) ->
  (1 - c * unit_roundoff) * s <= acc ->
  (1 - c * unit_roundoff) * acc <= s ->
  exists t, fold_left fadd64 (Finite <$> qs) (Finite acc) = Finite t.
Proof.
  destruct unit_roundoff_bounds as [Hu0 Hu1].
  revert acc s c. induction qs as [|v qs IH]; intros acc s c Hqs Ha Hg Hs Hc.
  - intros _ _ _ _. by exists acc.
  - apply Forall_cons in Hqs as [[Hv Hgv] Hqs].
    cbn [length]. rewrite whole_succ, fmap_cons, exact_sum_cons.
    intros Hn Hb H1 H2. cbn [fold_left fadd64].
    pose proof (whole_nonneg (length qs)) as Hlen.
    pose proof (exact_sum_nonneg qs Hqs) as Hsum.
    assert (Hav : 0 <= acc + v) by (to_Q; lra).
    assert (Hcu : (c + 1) * unit_roundoff <= Q2Qc (1 # 2)).
    { to_Q. revert Hn Hlen Hc Hu0.
      generalize (this (whole (Z.of_nat (length qs)))) (this c)
        (this unit_roundoff). intros n qc u. intros.
      assert (0 <= n * u)%Q by (apply Qmult_le_0_compat; lra). lra. }
    assert (Hc1 : 0 <= 1 - (c + 1) * unit_roundoff) by (to_Q; lra).
    pose proof (round64_spec (acc + v) Hav) as Hr.
    destruct (round64 (acc + v)) as [y| | |]; try done.
    + destruct Hr as (Hy & Hgy & _ & _ & Hrel).
      destruct (Hrel (on_grid_plus _ _ Hg Hgv)) as [Hlo Hhi].
      assert (Hsv : 0 <= s + v) by (to_Q; lra).
      assert (Hu : 0 <= unit_roundoff) by (by apply Qclt_le_weak).
      apply (IH y (s + v) (c + 1)); try done.
      * to_Q. lra.
      * replace (c + 1 + whole (Z.of_nat (length qs)))
          with (c + (whole (Z.of_nat (length qs)) + 1)) by ring. done.
      * replace (s + v + exact_sum (Finite <$> qs))
          with (s + (v + exact_sum (Finite <$> qs))) by ring. done.
      * by apply (step_lower _ _ acc).
      * by apply (step_upper _ _ acc).
    + exfalso. to_Q.
      assert (E : (pow2 1000 == 4 * pow2 998)%Q) by reflexivity.
      pose proof (pow2_pos 998) as H998.
      revert Hr Hb H2 Hcu Hc Hu0 Ha Hv Hs Hsum H998 E.
      generalize (this acc) (this v) (this s) (this c) (this unit_roundoff)
        (this (exact_sum (Finite <$> qs))) (pow2 1000) (pow2 998).
      clear. intros a v s c u sigma p1000 p998. intros.
      assert (H0 : (0 <= c * u)%Q) by (apply Qmult_le_0_compat; lra).
      assert (H3 : (0 <= ((1 # 2) - c * u) * a)%Q)
        by (apply Qmult_le_0_compat; lra).
      lra.
Qed.

(** From the tolerance of the exact sum to the tolerance of the float64
    sum. *)
Lemma float_sum_tolerance (d tol sigma f : Qc) :
  0 <= d -> d <= Q2Qc (1 # 2) -> 2 * d <= tol ->
  1 - tol <= sigma -> sigma <= 1 + tol ->
  (1 - d) * sigma <= f -> (1 - d) * f <= sigma ->
  1 - Q2Qc 3 * tol <= f /\ f <= 1 + Q2Qc 3 * tol.
Proof.
  intros. to_Q.
  set (qd := this d) in *. set (qt := this tol) in *.
  set (qs := this sigma) in *. set (qf := this f) in *.
  clearbody qd qt qs qf. clear d tol sigma f.
  assert (K0 : (0 <= qd * qt)%Q) by (apply Qmult_le_0_compat; lra).
  assert (K1 : (0 <= ((1 # 2) - qd) * qt)%Q)
    by (apply Qmult_le_0_compat; lra).
  split.
  - assert (K2 : (0 <= (1 - qd) * (qs - (1 - qt)))%Q)
      by (apply Qmult_le_0_compat; lra).
    lra.
  - assert (K3 : (qf * (1 - qd) <= (1 + 3 * qt) * (1 - qd))%Q) by lra.
    apply Qmult_le_r in K3; lra.
Qed.

(* ===================================================================== *)
(** * Allocation                                                          *)
(* ===================================================================== *)

(** C6, as first stated, fails in three ways.  A long and a short position
    that cancel give a total value of 0 and allocations of 5 and -5, not
    0: the guard divides by 1.  When the total value is plus infinity
    (which is greater than 0) the allocation is NaN and the allocations do
    not sum to 1.  And with finite values of both signs the total itself is
    rounded: the values 10^16, 1, -10^16 and 3 have the float64 total 3
    (the 1 is lost), and the allocations sum to 3/2 in float64, and to
    more than 5/4 exactly. *)
Lemma C6_allocation_counterexamples :
  let long := mkPosition 1 "A" (num 5) (num 1) "2024-01-02" (Some "") in
  let short := mkPosition 2 "B" (num (-5)) (num 1) "2024-01-03" (Some "") in
  let cancelling :=
    agg64 (dashboard_metrics [("A", num 1); ("B", num 1)] [long; short]) in
  let infinite :=
    agg64 (dashboard_metrics [("A", PInf); ("B", num 1)] [long; long]) in
  let rounded :=
    agg64 (dashboard_metrics
             [("A", num 1); ("B", num 1); ("C", num 1); ("D", num 1)]
             [mkPosition 1 "A" (num (10 ^ 16)) (num 1) "2024-01-02" (Some "");
              mkPosition 2 "B" (num 1) (num 1) "2024-01-03" (Some "");
              mkPosition 3 "C" (num (- 10 ^ 16)) (num 1) "2024-01-04"
                         (Some "");
              mkPosition 4 "D" (num 3) (num 1) "2024-01-05" (Some "")]) in
  (series_sum64 (agg_current_value <$> cancelling) = zero /\
   allocation_pct64 cancelling = [num 5; num (-5)] /\
   num 5 <> zero) /\
  (series_sum64 (agg_current_value <$> infinite) = PInf /\
   fpositive PInf = true /\
   allocation_pct64 infinite = [NaN] /\
   series_sum64 (allocation_pct64 infinite) = zero /\
   zero <> one) /\
  (agg_current_value <$> rounded
     = [num (10 ^ 16); num 1; num (- 10 ^ 16); num 3] /\
   forallb binary64 (agg_current_value <$> rounded) = true /\
   series_sum64 (agg_current_value <$> rounded) = num 3 /\
   fpositive (num 3) = true /\
   series_sum64 (allocation_pct64 rounded) = lit 3 2 /\
   Q2Qc (5 # 4) <= exact_sum (allocation_pct64 rounded)).
Proof.
  cbv zeta. split; [|split].
  - repeat split; float_compute.
  - repeat split; float_compute.
  - split; [float_compute|]. split; [by vm_compute|].
    split; [float_compute|]. split; [done|]. split; [float_compute|].
    by vm_compute.
Qed.

(** C6 (amended).  [allocation_pct] is [current_value] divided by the
    total value, or by 1 when the total value is 0, in float64.  When no
    [current_value] is negative or non-finite (the values being binary64
    numbers, of at most 2^52 symbols) and the total value is finite and
    greater than 0, every allocation is finite and not negative, and the
    allocations sum to 1 within the tolerance
    [2 (n + 1) 2^-53 + n 2^-1075] for [n] symbols, and within three
    times that when they are summed in float64.  When the total
    value is 0 every allocation equals the symbol's own [current_value];
    so all are 0 when no [current_value] is negative or non-finite.  When
    the total value is NaN every allocation is NaN, and when it is
    infinite every allocation is 0 or NaN. *)
Theorem C6_allocation (agg : list AggRow) :
  let cvs := agg_current_value <$> agg in
  let total_value := series_sum64 cvs in
  let n := whole (Z.of_nat (length agg)) in
  let tolerance := 2 * (n + 1) * unit_roundoff + n * underflow_unit in
  allocation_pct64 agg
  = (fun a => fdiv64 (agg_current_value a)
                     (if is_zero total_value then one else total_value))
      <$> agg /\
  (forallb fnonneg cvs = true -> forallb binary64 cvs = true ->
   (Z.of_nat (length agg) <= 2 ^ 52)%Z ->
   fpositive total_value = true -> is_finite total_value ->
   allocation_pct64 agg = (fun x => fdiv64 x total_value) <$> cvs /\
   Forall (fun x => exists q, x = Finite q /\ 0 <= q)
          (allocation_pct64 agg) /\
   1 - tolerance <= exact_sum (allocation_pct64 agg) /\
   exact_sum (allocation_pct64 agg) <= 1 + tolerance /\
   exists total_allocation,
     series_sum64 (allocation_pct64 agg) = Finite total_allocation /\
     1 - Q2Qc 3 * tolerance <= total_allocation /\
     total_allocation <= 1 + Q2Qc 3 * tolerance) /\
  (is_zero total_value = true -> forallb binary64 cvs = true ->
   allocation_pct64 agg = cvs) /\
  (is_zero total_value = true -> forallb binary64 cvs = true ->
   forallb fnonneg cvs = true ->
   Forall (fun x => x = zero) (allocation_pct64 agg)) /\
  (total_value = NaN -> Forall (fun x => x = NaN) (allocation_pct64 agg)) /\
  (total_value = PInf \/ total_value = NInf ->
   Forall (fun x => x = zero \/ x = NaN) (allocation_pct64 agg)).
Proof.
  cbv zeta. unfold allocation_pct64.
  set (cvs := agg_current_value <$> agg).
  assert (Hzero : is_zero (series_sum64 cvs) = true ->
                  forallb binary64 cvs = true ->
                  (fun a => fdiv64 (agg_current_value a)
                              (if is_zero (series_sum64 cvs) then one
                               else series_sum64 cvs)) <$> agg = cvs).
  { intros -> Hb. unfold cvs. apply list_fmap_ext.
    intros _ a Ha%list_elem_of_lookup_2. apply fdiv64_one.
    rewrite forallb_forall in Hb. apply Hb, list_elem_of_In.
    by apply list_elem_of_fmap_2. }
  split; [done|]. split; [|split; [done|split; [|split]]].
  - intros Hnn Hb Hn Hpos Hfin.
    destruct (nonneg_binary64 cvs Hnn Hb) as (qs & Hqs & Hall).
    assert (Hlen : length qs = length agg).
    { rewrite <- (length_fmap Finite qs), <- Hqs. unfold cvs.
      apply length_fmap. }
    pose proof (symbols_roundoff _ Hn) as Hnu.
    destruct unit_roundoff_bounds as [Hu0 Hu1].
    pose proof underflow_unit_pos as He0.
    pose proof (whole_nonneg (length agg)) as Hn0.
    set (n := whole (Z.of_nat (length agg))) in *.
    assert (Hnu1 : n * unit_roundoff <= Q2Qc (1 # 2)).
    { to_Q. revert Hnu. generalize (this n) (this unit_roundoff).
      intros a u Hx. lra. }
    pose proof (series_sum64_bounds qs Hall) as Hsum.
    rewrite Hlen in Hsum. fold n in Hsum. rewrite <- Hqs in Hsum.
    destruct (series_sum64 cvs) as [t| | |] eqn:HT; try done.
    destruct Hsum as (Ht0 & _ & Hlo & Hhi).
    { to_Q. lra. }
    apply fpositive_Finite in Hpos.
    assert (Hnz : is_zero (Finite t) = false).
    { cbn [is_zero]. apply bool_decide_eq_false_2. intros ->.
      by apply (Qclt_not_eq _ _ Hpos). }
    rewrite Hnz.
    rewrite (list_fmap_compose agg_current_value
               (fun x => fdiv64 x (Finite t))).
    fold cvs. split; [done|].
    set (s := exact_sum cvs) in *.
    assert (Hs0 : 0 <= s).
    { unfold s. rewrite Hqs. clear -Hall.
      induction Hall as [|v qs [Hv _] _ IH]; [done|].
      rewrite fmap_cons, exact_sum_cons. to_Q. lra. }
    assert (Hd : 0 <= 1 - n * unit_roundoff /\
                 Q2Qc (1 # 2) <= 1 - n * unit_roundoff).
    { split; to_Q; lra. }
    destruct Hd as [Hd0 Hd1].
    assert (Hs2t : s <= 2 * t).
    { to_Q. revert Hlo Hd1 Hs0. generalize (this s) (this t).
      generalize (1 - this n * this unit_roundoff)%Q. intros d qs' qt. intros.
      assert (0 <= (d - (1 # 2)) * qs')%Q
        by (apply Qmult_le_0_compat; lra).
      lra. }
    assert (Hle : Forall (fun v => 0 <= v /\ v <= 2 * t) qs).
    { assert (Hsum_le : Forall (fun v => 0 <= v /\ v <= s) qs).
      { assert (Hnn' : Forall (fun x => fnonneg x = true) cvs).
        { apply Forall_forall. intros x Hx.
          rewrite forallb_forall in Hnn. by apply Hnn, list_elem_of_In. }
        apply nonneg_le_sum in Hnn'. unfold s, exact_sum.
        rewrite Hqs in Hnn' |- *. rewrite Forall_fmap in Hnn'.
        eapply Forall_impl; [exact Hnn'|].
        intros v (q & [= <-] & H0 & H1). done. }
      eapply Forall_impl; [exact Hsum_le|].
      intros v [H0 H1]. split; [done|]. to_Q. lra. }
    destruct (alloc_bounds qs t Hpos Hle) as (als & Hals & Hpos' & Hal & Hah).
    rewrite Hlen in Hal, Hah. fold n in Hal, Hah.
    rewrite <- Hqs in Hals, Hal, Hah. fold s in Hal, Hah.
    rewrite Hals. split.
    { apply Forall_fmap. eapply Forall_impl; [exact Hpos'|].
      intros a [Ha _]. by exists a. }
    destruct (quotient_bounds (1 - n * unit_roundoff) s t)
      as (Hr0 & Hr1 & Hr2); try done.
    assert (Hu : 0 <= unit_roundoff) by (by apply Qclt_le_weak).
    assert (He : 0 <= underflow_unit) by (by apply Qclt_le_weak).
    assert (Heu : underflow_unit <= unit_roundoff) by (by vm_compute).
    set (tol := 2 * (n + 1) * unit_roundoff + n * underflow_unit).
    destruct (allocation_tolerance n unit_roundoff underflow_unit (s / t)
                (exact_sum (Finite <$> als))) as [Hex1 Hex2]; try done.
    fold tol in Hex1, Hex2. split; [done|]. split; [done|].
    assert (Hlen' : length als = length agg).
    { pose proof (f_equal length Hals) as Hl.
      rewrite !length_fmap in Hl. unfold cvs in Hl.
      by rewrite length_fmap in Hl. }
    assert (Htol : 2 * (n * unit_roundoff) <= tol /\ tol <= Q2Qc 3).
    { unfold tol. split; to_Q.
      - revert Hn0 Hu He. generalize (this n) (this unit_roundoff)
          (this underflow_unit). intros a u e. intros.
        assert (0 <= a * e)%Q by (apply Qmult_le_0_compat; lra). lra.
      - revert Hn0 Hu He Heu Hnu1 Hu1.
        generalize (this n) (this unit_roundoff) (this underflow_unit).
        intros a u e. intros.
        assert (0 <= a * (u - e))%Q by (apply Qmult_le_0_compat; lra).
        lra. }
    destruct Htol as [Htol1 Htol2].
    assert (Hsumf : exists f,
      series_sum64 (Finite <$> als) = Finite f).
    { unfold series_sum64. rewrite filter_Finite.
      apply (fold_fadd64_finite als 0 0 0); try done;
        try apply on_grid_0;
        try (replace ((1 - 0 * unit_roundoff) * 0) with 0 by ring; done).
      - rewrite Hlen'. fold n. by replace (0 + n) with n by ring.
      - replace (0 + exact_sum (Finite <$> als))
          with (exact_sum (Finite <$> als)) by ring.
        assert (H4 : (4 <= pow2 998)%Q).
        { apply Qle_trans with (pow2 2); [by vm_compute|]. by apply pow2_le. }
        to_Q. lra. }
    destruct Hsumf as [f Hf]. exists f. split; [done|].
    pose proof (series_sum64_bounds als Hpos') as Hsum.
    rewrite Hf, Hlen' in Hsum. fold n in Hsum.
    destruct Hsum as (_ & _ & Hf1 & Hf2).
    { to_Q. lra. }
    apply (float_sum_tolerance (n * unit_roundoff) tol
             (exact_sum (Finite <$> als))); try done.
    to_Q. revert Hn0 Hu. generalize (this n) (this unit_roundoff).
    intros a u. intros. apply Qmult_le_0_compat; lra.
  - intros Hz Hb Hnn. rewrite (Hzero Hz Hb).
    destruct (nonneg_binary64 cvs Hnn Hb) as (qs & Hqs & Hall).
    rewrite Hqs in Hz |- *. unfold series_sum64 in Hz.
    rewrite filter_Finite in Hz.
    destruct (fold_left fadd64 (Finite <$> qs) zero) as [t| | |] eqn:Hf;
      try done.
    cbn [is_zero] in Hz. apply bool_decide_eq_true in Hz. subst t.
    destruct (fold_fadd64_zero qs 0 Hall) as [_ Hzs]; try done.
    { apply on_grid_0. }
    apply Forall_fmap. eapply Forall_impl; [exact Hzs|]. by intros v ->.
  - intros ->. cbn [is_zero]. apply Forall_fmap, Forall_forall.
    intros a _. unfold compose. by destruct (agg_current_value a).
  - intros [-> | ->]; cbn [is_zero]; apply Forall_fmap, Forall_forall;
      intros a _; unfold compose;
      destruct (agg_current_value a); simpl; auto.
Qed.

Lemma C6_allocation_witness :
  let lot1 := mkPosition 1 "MSFT" (num 6) (num 100) "2024-01-02" None in
  let lot2 := mkPosition 2 "AAPL" (num 2) (num 50) "2024-01-03" None in
  let priced :=
    agg64 (dashboard_metrics [("MSFT", num 10); ("AAPL", num 20)]
                             [lot1; lot2]) in
  let unpriced :=
    agg64 (dashboard_metrics [("MSFT", zero); ("AAPL", zero)]
                             [lot1; lot2]) in
  let tolerance := 2 * (2 + 1) * unit_roundoff + 2 * underflow_unit in
  (1 - tolerance <= exact_sum (allocation_pct64 priced) /\
   exact_sum (allocation_pct64 priced) <= 1 + tolerance) /\
  allocation_pct64 unpriced = agg_current_value <$> unpriced /\
  Forall (fun x => x = zero) (allocation_pct64 unpriced).
Proof.
  cbv zeta.
  pose proof (C6_allocation
    (agg64 (dashboard_metrics [("MSFT", num 10); ("AAPL", num 20)]
              [mkPosition 1 "MSFT" (num 6) (num 100) "2024-01-02" None;
               mkPosition 2 "AAPL" (num 2) (num 50) "2024-01-03" None])))
    as (_ & Hpos & _).
  pose proof (C6_allocation
    (agg64 (dashboard_metrics [("MSFT", zero); ("AAPL", zero)]
              [mkPosition 1 "MSFT" (num 6) (num 100) "2024-01-02" None;
               mkPosition 2 "AAPL" (num 2) (num 50) "2024-01-03" None])))
    as (_ & _ & Hzero & Hall & _).
  split; [|split].
  - destruct Hpos as (_ & _ & Hlo & Hhi & _).
    + vm_compute. reflexivity.
    + vm_compute. reflexivity.
    + by vm_compute.
    + vm_compute. reflexivity.
    + vm_compute. exact I.
    + split; [exact Hlo|exact Hhi].
  - apply Hzero; vm_compute; reflexivity.
  - apply Hall; vm_compute; reflexivity.
Defined.
